(** * LibUTF strict layer (utf_std.cpp): a shallow embedding and its properties

    The development follows [src/utf_std.cpp]: the BOM sniffer
    [identifyUTF], the per-encoding primitives [getUTF8] .. [setUTF32be],
    the string functions [strsizeUTF8] .. [strlenUTF16be], the handler
    interface [IUTF] with its cursor wrappers, [validate] and the line
    scanner.

    Conventions of the embedding.
    - [uint8_t] is [byte]; [static_cast<uint8_t>] is [byte.of_Z] and
      the integral promotion of a byte is [byte.unsigned].
    - [uint32_t] and [unicode_t] (an [int32_t], see docs/utf/std_overview.md)
      are kept as their 32-bit pattern, a [Z] in [0, 2^32); arithmetic that
      can leave that range is wrapped by [wrap32], and [>>] on a
      [unicode_t] is the arithmetic shift of the signed reading.
    - A pointer is [option (list byte)]: [None] is [nullptr], [Some l] gives
      the bytes from the pointed position on.  C++ leaves a read or write
      beyond the allocation undefined; here such a read gives 0 and such a
      write does nothing, and the theorems that depend on it assume that
      [size] bytes are really there.
    - Output parameters become components of the result. *)

From Stdlib Require Import ZArith Lia Bool.
From stdpp Require Import base option list.
From coqutil Require Import Byte.

Local Open Scope Z_scope.

(** ** Machine integers *)

Definition wrap32 (z : Z) : Z := z mod 2 ^ 32.

(** The value of a 32-bit pattern read as [int32_t]. *)
Definition signed32 (z : Z) : Z := if z <? 2 ^ 31 then z else z - 2 ^ 32.

Definition add32 (x y : Z) : Z := wrap32 (x + y).
Definition sub32 (x y : Z) : Z := wrap32 (x - y).
Definition shl32 (x k : Z) : Z := wrap32 (Z.shiftl x k).

(** [x >> k] for [x : unicode_t]. *)
Definition sar32 (x k : Z) : Z := wrap32 (Z.shiftr (signed32 x) k).

(** [static_cast<uint8_t>(z)], promoted back to an integer. *)
Definition lo8 (z : Z) : Z := byte.unsigned (byte.of_Z z).

(** ** Buffers *)

Definition ptr : Type := option (list byte).

(** [buffer[i]] as a value. *)
Definition ld (buffer : list byte) (i : nat) : Z :=
  byte.unsigned (default Byte.x00 (buffer !! i)).

(** [buffer[i] = z;] *)
Definition st (buffer : list byte) (i : nat) (z : Z) : list byte :=
  <[i := byte.of_Z z]> buffer.

(** [reinterpret_cast<const char*>(buffer)[i]]: the byte read as a signed
    [char], which is what makes [string[i] > 0] select 0x01..0x7f. *)
Definition ld_char (buffer : list byte) (i : nat) : Z :=
  let u := ld buffer i in if u <? 0x80 then u else u - 0x100.

(** [&buffer[k]]; taken on [nullptr] it is kept null here (C++ defines it
    for [k = 0] only). *)
Definition ptr_at (buffer : ptr) (k : Z) : ptr :=
  drop (Z.to_nat k) <$> buffer.

(** What the buffer behind [buffer] holds once the bytes from [&buffer[k]]
    on have become [sub]: the two pointers alias the same storage. *)
Definition ptr_merge (buffer : ptr) (k : Z) (sub : ptr) : ptr :=
  match buffer, sub with
  | Some b, Some s => Some (take (Z.to_nat k) b ++ s)
  | _, _ => buffer
  end.

(** ** Encoding identities *)

Inductive UTF_TYPE : Type :=
  | UTF8 | UTF16le | UTF16be | UTF32le | UTF32be | OTHER.

Inductive UTF_OTHER_TYPE : Type :=
  | JUTF8 | ISO8859_1 | Ascii | CP1252.

(** ** identifyUTF *)

(** First alternative that returned, else the code falls through. *)
Definition or_else {A : Type} (x y : option A) : option A :=
  match x with Some _ => x | None => y end.

Definition identify_bom (b : list byte) (size : Z) : option (UTF_TYPE * Z) :=
  if 2 <=? size then
    or_else
      (if 3 <=? size then
         or_else
           (if 4 <=? size then
              if (ld b 0 =? 0xff) && (ld b 1 =? 0xfe) && (ld b 2 =? 0x00) && (ld b 3 =? 0x00)
              then Some (UTF32le, 4)
              else if (ld b 0 =? 0x00) && (ld b 1 =? 0x00) && (ld b 2 =? 0xfe) && (ld b 3 =? 0xff)
              then Some (UTF32be, 4)
              else None
            else None)
           (if (ld b 0 =? 0xef) && (ld b 1 =? 0xbb) && (ld b 2 =? 0xbf)
            then Some (UTF8, 3) else None)
       else None)
      (if (ld b 0 =? 0xff) && (ld b 1 =? 0xfe) then Some (UTF16le, 2)
       else if (ld b 0 =? 0xfe) && (ld b 1 =? 0xff) then Some (UTF16be, 2)
       else None)
  else None.

Definition identify_ascii (b : list byte) (size : Z) : option UTF_TYPE :=
  let s := ld_char b in
  if 2 <=? size then
    or_else
      (if 4 <=? size then
         or_else
           (if 8 <=? size then
              if (s 1%nat =? 0) && (s 2%nat =? 0) && (s 5%nat =? 0) && (s 6%nat =? 0) then
                if (s 3%nat =? 0) && (s 7%nat =? 0) && (0 <? s 0%nat) && (0 <? s 4%nat)
                then Some UTF32le
                else if (s 0%nat =? 0) && (s 4%nat =? 0) && (0 <? s 3%nat) && (0 <? s 7%nat)
                then Some UTF32be
                else None
              else None
            else None)
           (if (s 1%nat =? 0) && (s 3%nat =? 0) && (0 <? s 0%nat) && (0 <? s 2%nat)
            then Some UTF16le
            else if (s 0%nat =? 0) && (s 2%nat =? 0) && (0 <? s 1%nat) && (0 <? s 3%nat)
            then Some UTF16be
            else None)
       else None)
      (if (0 <? s 0%nat) && (0 <? s 1%nat) then Some UTF8 else None)
  else None.

(** Returns the encoding and [bytes], the length of the BOM found. *)
Definition identifyUTF (buffer : ptr) (size : Z) : UTF_TYPE * Z :=
  match buffer with
  | Some b =>
      match identify_bom b size with
      | Some r => r
      | None =>
          match identify_ascii b size with
          | Some t => (t, 0)
          | None => (OTHER, 0)
          end
      end
  | None => (OTHER, 0)
  end.

(** ** Single-byte forms *)

(** Results are [(success, unicode, bytes)] for the decoders and
    [(success, buffer, bytes)] for the encoders. *)

Definition getBYTE (buffer : ptr) (size : Z) (use_ascii : bool) : bool * Z * Z :=
  match buffer with
  | Some b =>
      if 1 <=? size then
        let byte := ld b 0 in
        if negb use_ascii || (byte <=? 0x7f) then (true, ld b 0, 1)
        else (false, add32 0x80000000 byte, 1)
      else (false, 0, 0)
  | None => (false, 0, 0)
  end.

Definition setBYTE (buffer : ptr) (size : Z) (unicode : Z) (use_ascii : bool)
  : bool * ptr * Z :=
  match buffer with
  | Some b =>
      if (1 <=? size) && (unicode <=? (if use_ascii then 0x7f else 0xff))
      then (true, Some (st b 0 unicode), 1)
      else (false, buffer, 0)
  | None => (false, buffer, 0)
  end.

(** ** UTF-8 *)

Definition getUTF8 (buffer : ptr) (size : Z) (use_java : bool) : bool * Z * Z :=
  match buffer with
  | Some b =>
      if 1 <=? size then
        let byte := ld b 0 in
        (* bytes = 1; unicode = byte; every failure below leaves through
           [unicode |= 0x80000000u] with bytes still 1 *)
        let failed := (false, Z.lor byte 0x80000000, 1) in
        if lo8 (byte + 8) <=? 0xc7 then
          if byte <=? 0x7f then (true, byte, 1) else failed
        else if byte <=? 0xdf then
          if 2 <=? size then
            let value := Z.land byte 0x1f in
            let byte := ld b 1 in
            if Z.land byte 0xc0 =? 0x80 then
              let value := add32 (shl32 value 6) (Z.land byte 0x3f) in
              if (0x80 <=? value) || (use_java && (value =? 0))
              then (true, value, 2) else failed
            else failed
          else failed
        else if byte <=? 0xef then
          if 3 <=? size then
            let value := Z.land byte 0x0f in
            let byte := ld b 1 in
            if Z.land byte 0xc0 =? 0x80 then
              let value := add32 (shl32 value 6) (Z.land byte 0x3f) in
              let byte := ld b 2 in
              if Z.land byte 0xc0 =? 0x80 then
                let value := add32 (shl32 value 6) (Z.land byte 0x3f) in
                if (0x800 <=? value) && negb (Z.land value 0xfffff800 =? 0xd800)
                then (true, value, 3) else failed
              else failed
            else failed
          else failed
        else
          if 4 <=? size then
            let value := Z.land byte 0x07 in
            let byte := ld b 1 in
            if Z.land byte 0xc0 =? 0x80 then
              let value := add32 (shl32 value 6) (Z.land byte 0x3f) in
              let byte := ld b 2 in
              if Z.land byte 0xc0 =? 0x80 then
                let value := add32 (shl32 value 6) (Z.land byte 0x3f) in
                let byte := ld b 3 in
                if Z.land byte 0xc0 =? 0x80 then
                  let value := add32 (shl32 value 6) (Z.land byte 0x3f) in
                  if (0x10000 <=? value) && (value <=? 0x10ffff)
                  then (true, value, 4) else failed
                else failed
              else failed
            else failed
          else failed
      else (false, 0, 0)
  | None => (false, 0, 0)
  end.

Definition setUTF8 (buffer : ptr) (size : Z) (unicode : Z) (use_java : bool)
  : bool * ptr * Z :=
  let failed := (false, buffer, 0) in
  match buffer with
  | Some b =>
      if (1 <=? size) && (unicode <=? 0x10ffff) then
        if unicode <=? 0x7f then
          if use_java && (unicode =? 0) then
            if 2 <=? size
            then (true, Some (st (st b 0 0xc0) 1 0x80), 2)
            else failed
          else
            if 1 <=? size
            then (true, Some (st b 0 unicode), 1)
            else failed
        else if unicode <=? 0x7ff then
          if 2 <=? size then
            let b := st b 0 (Z.lor (lo8 (sar32 unicode 6)) 0xc0) in
            let b := st b 1 (Z.lor (Z.land (lo8 unicode) 0x3f) 0x80) in
            (true, Some b, 2)
          else failed
        else if unicode <=? 0xffff then
          if (3 <=? size) && negb (Z.land unicode 0xfffff800 =? 0xd800) then
            let b := st b 0 (Z.lor (lo8 (sar32 unicode 12)) 0xe0) in
            let b := st b 1 (Z.lor (Z.land (lo8 (sar32 unicode 6)) 0x3f) 0x80) in
            let b := st b 2 (Z.lor (Z.land (lo8 unicode) 0x3f) 0x80) in
            (true, Some b, 3)
          else failed
        else
          if 4 <=? size then
            let b := st b 0 (Z.lor (lo8 (sar32 unicode 18)) 0xf0) in
            let b := st b 1 (Z.lor (Z.land (lo8 (sar32 unicode 12)) 0x3f) 0x80) in
            let b := st b 2 (Z.lor (Z.land (lo8 (sar32 unicode 6)) 0x3f) 0x80) in
            let b := st b 3 (Z.lor (Z.land (lo8 unicode) 0x3f) 0x80) in
            (true, Some b, 4)
          else failed
      else failed
  | None => failed
  end.

(** ** UTF-16 *)

Definition getUTF16le (buffer : ptr) (size : Z) : bool * Z * Z :=
  match buffer with
  | Some b =>
      if 2 <=? size then
        let value := add32 (shl32 (ld b 1) 8) (ld b 0) in
        if negb (Z.land value 0xfffff800 =? 0xd800) then (true, value, 2)
        else if (4 <=? size) && (Z.land value 0xfffffc00 =? 0xd800) then
          let extra := add32 (shl32 (ld b 3) 8) (ld b 2) in
          if Z.land extra 0xfffffc00 =? 0xdc00 then
            (true,
             add32 (add32 (shl32 (Z.land value 0x3ff) 10) (Z.land extra 0x3ff)) 0x10000,
             4)
          else (false, 0x80000000, 2)
        else (false, 0x80000000, 2)
      else (false, 0, 0)
  | None => (false, 0, 0)
  end.

Definition setUTF16le (buffer : ptr) (size : Z) (unicode : Z) : bool * ptr * Z :=
  let failed := (false, buffer, 0) in
  match buffer with
  | Some b =>
      if (2 <=? size) && (unicode <=? 0x10ffff)
         && negb (Z.land unicode 0xfffff800 =? 0xd800) then
        if unicode <=? 0xffff then
          let b := st b 0 unicode in
          let b := st b 1 (sar32 unicode 8) in
          (true, Some b, 2)
        else if 4 <=? size then
          let surrogate := sub32 unicode 0x10000 in
          let surrogate :=
            Z.lor (Z.land (Z.lor (sar32 surrogate 10) (shl32 surrogate 16)) 0x03ff03ff)
                  0xdc00d800 in
          let b := st b 0 surrogate in
          let b := st b 1 (sar32 surrogate 8) in
          let b := st b 2 (sar32 surrogate 16) in
          let b := st b 3 (sar32 surrogate 24) in
          (true, Some b, 4)
        else failed
      else failed
  | None => failed
  end.

Definition getUTF16be (buffer : ptr) (size : Z) : bool * Z * Z :=
  match buffer with
  | Some b =>
      if 2 <=? size then
        let value := add32 (shl32 (ld b 0) 8) (ld b 1) in
        if negb (Z.land value 0xfffff800 =? 0xd800) then (true, value, 2)
        else if (4 <=? size) && (Z.land value 0xfffffc00 =? 0xd800) then
          let extra := add32 (shl32 (ld b 2) 8) (ld b 3) in
          if Z.land extra 0xfffffc00 =? 0xdc00 then
            (true,
             add32 (add32 (shl32 (Z.land value 0x3ff) 10) (Z.land extra 0x3ff)) 0x10000,
             4)
          else (false, 0x80000000, 2)
        else (false, 0x80000000, 2)
      else (false, 0, 0)
  | None => (false, 0, 0)
  end.

Definition setUTF16be (buffer : ptr) (size : Z) (unicode : Z) : bool * ptr * Z :=
  let failed := (false, buffer, 0) in
  match buffer with
  | Some b =>
      if (2 <=? size) && (unicode <=? 0x10ffff)
         && negb (Z.land unicode 0xfffff800 =? 0xd800) then
        if unicode <=? 0xffff then
          let b := st b 0 (sar32 unicode 8) in
          let b := st b 1 unicode in
          (true, Some b, 2)
        else if 4 <=? size then
          let surrogate := sub32 unicode 0x10000 in
          let surrogate :=
            Z.lor (Z.land (Z.lor (sar32 surrogate 10) (shl32 surrogate 16)) 0x03ff03ff)
                  0xdc00d800 in
          let b := st b 0 (sar32 surrogate 8) in
          let b := st b 1 surrogate in
          let b := st b 2 (sar32 surrogate 24) in
          let b := st b 3 (sar32 surrogate 16) in
          (true, Some b, 4)
        else failed
      else failed
  | None => failed
  end.

(** ** UTF-32 *)

Definition getUTF32le (buffer : ptr) (size : Z) : bool * Z * Z :=
  match buffer with
  | Some b =>
      if 4 <=? size then
        let value :=
          add32 (shl32 (add32 (shl32 (add32 (shl32 (ld b 3) 8) (ld b 2)) 8) (ld b 1)) 8)
                (ld b 0) in
        if (value <=? 0x10ffff) && negb (Z.land value 0xfffff800 =? 0xd800)
        then (true, value, 4)
        else (false, 0x80000000, 4)
      else (false, 0, 0)
  | None => (false, 0, 0)
  end.

Definition setUTF32le (buffer : ptr) (size : Z) (unicode : Z) : bool * ptr * Z :=
  match buffer with
  | Some b =>
      if (4 <=? size) && (unicode <=? 0x10ffff)
         && negb (Z.land unicode 0xfffff800 =? 0xd800) then
        let b := st b 0 unicode in
        let b := st b 1 (sar32 unicode 8) in
        let b := st b 2 (sar32 unicode 16) in
        let b := st b 3 (sar32 unicode 24) in
        (true, Some b, 4)
      else (false, buffer, 0)
  | None => (false, buffer, 0)
  end.

Definition getUTF32be (buffer : ptr) (size : Z) : bool * Z * Z :=
  match buffer with
  | Some b =>
      if 4 <=? size then
        let value :=
          add32 (shl32 (add32 (shl32 (add32 (shl32 (ld b 0) 8) (ld b 1)) 8) (ld b 2)) 8)
                (ld b 3) in
        if (value <=? 0x10ffff) && negb (Z.land value 0xfffff800 =? 0xd800)
        then (true, value, 4)
        else (false, 0x80000000, 4)
      else (false, 0, 0)
  | None => (false, 0, 0)
  end.

Definition setUTF32be (buffer : ptr) (size : Z) (unicode : Z) : bool * ptr * Z :=
  match buffer with
  | Some b =>
      if (4 <=? size) && (unicode <=? 0x10ffff)
         && negb (Z.land unicode 0xfffff800 =? 0xd800) then
        let b := st b 0 (sar32 unicode 24) in
        let b := st b 1 (sar32 unicode 16) in
        let b := st b 2 (sar32 unicode 8) in
        let b := st b 3 unicode in
        (true, Some b, 4)
      else (false, buffer, 0)
  | None => (false, buffer, 0)
  end.

(** ** The text cursor *)

Module utf_text.
Record t : Type := mk { length : Z; offset : Z; buffer : ptr }.
End utf_text.

(** ** The handler interface *)

Module IUTF.

(** The virtual part of [class IUTF] that the cursor layer uses. *)
Record handler : Type := Handler {
  utfType : UTF_TYPE;
  unitSize : Z;
  lenBOM : Z;
  lenNull : Z;
  get : ptr -> Z -> bool * Z * Z;
  set : ptr -> Z -> Z -> bool * ptr * Z
}.

(** [IUTF::get(const utf_text&, unicode_t&, uint32_t&)] *)
Definition get_text (h : handler) (text : utf_text.t) : bool * Z * Z :=
  if utf_text.offset text <=? utf_text.length text then
    get h (ptr_at (utf_text.buffer text) (utf_text.offset text))
          (sub32 (utf_text.length text) (utf_text.offset text))
  else (false, 0, 0).

(** [IUTF::set(utf_text&, unicode_t, uint32_t&)]; the text returned holds
    what the encoder wrote through [&text.buffer[text.offset]]. *)
Definition set_text (h : handler) (text : utf_text.t) (unicode : Z)
  : bool * utf_text.t * Z :=
  if utf_text.offset text <=? utf_text.length text then
    let '(success, sub, bytes) :=
      set h (ptr_at (utf_text.buffer text) (utf_text.offset text))
            (sub32 (utf_text.length text) (utf_text.offset text)) unicode in
    (success,
     utf_text.mk (utf_text.length text) (utf_text.offset text)
                 (ptr_merge (utf_text.buffer text) (utf_text.offset text) sub),
     bytes)
  else (false, text, 0).

(** [text.offset += bytes;] *)
Definition advance (text : utf_text.t) (bytes : Z) : utf_text.t :=
  utf_text.mk (utf_text.length text) (add32 (utf_text.offset text) bytes)
              (utf_text.buffer text).

(** [IUTF::read]: the result is [(success, unicode, text)]. *)
Definition read (h : handler) (text : utf_text.t) : bool * Z * utf_text.t :=
  let '(success, unicode, bytes) := get_text h text in
  (success, unicode, advance text bytes).

(** [IUTF::write]: the result is [(success, text)]. *)
Definition write (h : handler) (text : utf_text.t) (unicode : Z)
  : bool * utf_text.t :=
  let '(success, text', bytes) := set_text h text unicode in
  (success, advance text' bytes).

(** The [while] loop of [IUTF::validate]; [None] when [fuel] iterations
    did not finish it. *)
Fixpoint validate_loop (fuel : nat) (h : handler) (scan : utf_text.t)
  : option bool :=
  if utf_text.offset scan <? utf_text.length scan then
    match fuel with
    | O => None
    | S fuel' =>
        let '(success, _, scan') := read h scan in
        if negb success then Some false else validate_loop fuel' h scan'
    end
  else Some true.

(** [IUTF::validate] *)
Definition validate (fuel : nat) (h : handler) (text : utf_text.t)
  : option bool :=
  if match utf_text.buffer text with None => true | Some _ => false end
     || (utf_text.offset text <? utf_text.length text)
  then Some false
  else validate_loop fuel h text.

(** [IUTF::getNLF] *)
Definition getNLF (h : handler) (text : utf_text.t) : bool * Z * Z :=
  let '(success, unicode, bytes) := get_text h text in
  if success then
    if (unicode =? 0x0a) || (unicode =? 0x0d) then
      let next := advance text bytes in
      let '(paired, pairing, extra) := get_text h next in
      let bytes :=
        if paired && (unicode =? Z.lxor pairing 0x0007)
        then add32 bytes extra else bytes in
      (success, 0x0a, bytes)
    else if (unicode =? 0x0b) || (unicode =? 0x0c) || (unicode =? 0x85)
            || (unicode =? 0x2028) || (unicode =? 0x2029) then
      (success, 0x0a, bytes)
    else (success, unicode, bytes)
  else (success, unicode, bytes).

(** [IUTF::readNLF] *)
Definition readNLF (h : handler) (text : utf_text.t) : bool * Z * utf_text.t :=
  let '(success, unicode, bytes) := getNLF h text in
  (success, unicode, advance text bytes).

(** The line that [getLine] reports when it finds none. *)
Definition no_line : utf_text.t := utf_text.mk 0 0 None.

(** The [while] loop of [IUTF::getLine], giving [(success, line, bytes)];
    [None] when [fuel] iterations did not finish it. *)
Fixpoint getLine_loop (fuel : nat) (h : handler) (scan : utf_text.t)
  : option (bool * utf_text.t * Z) :=
  let '(found, unicode, bytes) := getNLF h scan in
  if found then
    if (unicode =? 0x0a) || (unicode =? 0x00) then
      Some (true,
            utf_text.mk (utf_text.offset scan) 0 (utf_text.buffer scan),
            add32 bytes (utf_text.offset scan))
    else
      match fuel with
      | O => None
      | S fuel' => getLine_loop fuel' h (advance scan bytes)
      end
  else Some (false, no_line, bytes).

(** [IUTF::getLine] *)
Definition getLine (fuel : nat) (h : handler) (text : utf_text.t)
  : option (bool * utf_text.t * Z) :=
  if match utf_text.buffer text with None => false | Some _ => true end
     && (utf_text.offset text <=? utf_text.length text)
  then
    getLine_loop fuel h
      (utf_text.mk (sub32 (utf_text.length text) (utf_text.offset text)) 0
                   (ptr_at (utf_text.buffer text) (utf_text.offset text)))
  else Some (false, no_line, 0).

(** [IUTF::readLine]: the result is [(success, line, text)]. *)
Definition readLine (fuel : nat) (h : handler) (text : utf_text.t)
  : option (bool * utf_text.t * utf_text.t) :=
  match getLine fuel h text with
  | Some (success, line, bytes) => Some (success, line, advance text bytes)
  | None => None
  end.

End IUTF.

(** ** The concrete handlers *)

Definition CUTF8 : IUTF.handler :=
  IUTF.Handler UTF8 1 3 1
    (fun buffer size => getUTF8 buffer size false)
    (fun buffer size unicode => setUTF8 buffer size unicode false).

Definition CJUTF8 : IUTF.handler :=
  IUTF.Handler UTF8 1 3 1
    (fun buffer size => getUTF8 buffer size true)
    (fun buffer size unicode => setUTF8 buffer size unicode true).

Definition CUTF16le : IUTF.handler :=
  IUTF.Handler UTF16le 2 2 2 getUTF16le setUTF16le.

Definition CUTF16be : IUTF.handler :=
  IUTF.Handler UTF16be 2 2 2 getUTF16be setUTF16be.

Definition CUTF32le : IUTF.handler :=
  IUTF.Handler UTF32le 4 4 4 getUTF32le setUTF32le.

Definition CUTF32be : IUTF.handler :=
  IUTF.Handler UTF32be 4 4 4 getUTF32be setUTF32be.

Definition CBYTE : IUTF.handler :=
  IUTF.Handler OTHER 1 0 1
    (fun buffer size => getBYTE buffer size false)
    (fun buffer size unicode => setBYTE buffer size unicode false).

Definition CASCII : IUTF.handler :=
  IUTF.Handler OTHER 1 0 1
    (fun buffer size => getBYTE buffer size true)
    (fun buffer size unicode => setBYTE buffer size unicode true).

(** [IUTF::getHandler(UTF_TYPE)]; the default case goes through
    [getHandler(UTF_OTHER_TYPE::JUTF8)], which is the Java style UTF-8
    handler. *)
Definition getHandler (utfType : UTF_TYPE) : IUTF.handler :=
  match utfType with
  | UTF8 => CUTF8
  | UTF16le => CUTF16le
  | UTF16be => CUTF16be
  | UTF32le => CUTF32le
  | UTF32be => CUTF32be
  | OTHER => CJUTF8
  end.

(** ** Windows code page 1252 *)

(** The translation tables of unicode_utilities.h are not part of
    utf_std.cpp.  The two translations it calls, both at
    [CP1252Strictness::StrictUndefined], are parameters here; [None] stands
    for their [false]. *)
Section CodePage1252.

Variable cp1252ToUnicode : Z -> option Z.
Variable unicodeToCP1252 : Z -> option Z.

Definition lenCP1252 (unicode : Z) : Z :=
  match unicodeToCP1252 unicode with Some _ => 1 | None => 0 end.

Definition getCP1252 (buffer : ptr) (size : Z) : bool * Z * Z :=
  match buffer with
  | Some b =>
      if 1 <=? size then
        let cp1252 := ld b 0 in
        match cp1252ToUnicode cp1252 with
        | Some unicode => (true, unicode, 1)
        | None => (false, add32 0x80000000 cp1252, 1)
        end
      else (false, 0, 0)
  | None => (false, 0, 0)
  end.

Definition setCP1252 (buffer : ptr) (size : Z) (unicode : Z) : bool * ptr * Z :=
  match buffer with
  | Some b =>
      if (1 <=? size) && (unicode <=? 0xff) then
        match unicodeToCP1252 unicode with
        | Some cp1252 => (true, Some (st b 0 cp1252), 1)
        | None => (false, buffer, 0)
        end
      else (false, buffer, 0)
  | None => (false, buffer, 0)
  end.

Definition CCP1252 : IUTF.handler :=
  IUTF.Handler OTHER 1 0 1 getCP1252 setCP1252.

(** [IUTF::getHandler(UTF_OTHER_TYPE)] *)
Definition getHandlerOther (utfOtherType : UTF_OTHER_TYPE) : IUTF.handler :=
  match utfOtherType with
  | ISO8859_1 => CBYTE
  | Ascii => CASCII
  | CP1252 => CCP1252
  | JUTF8 => CJUTF8
  end.

(** The handlers that the two [getHandler] overloads hand out. *)
Definition served (h : IUTF.handler) : Prop :=
  (exists utfType, h = getHandler utfType) \/
  (exists utfOtherType, h = getHandlerOther utfOtherType).

End CodePage1252.

(** ** Notions used to state the properties *)

(** A rune: a Unicode scalar value (docs/utf/rune_handling.md). *)
Definition is_rune (u : Z) : Prop :=
  0 <= u <= 0x10ffff /\ ~ (0xd800 <= u <= 0xdfff).

(** Encoding [r] into [b] (capacity [size]) succeeds, and decoding what
    was written gives [r] back together with the byte count the encoder
    reported, whatever size at least that count the decoder is given. *)
Definition round_trips (setter : ptr -> Z -> Z -> bool * ptr * Z)
    (getter : ptr -> Z -> bool * Z * Z) (r : Z) (b : list byte) (size : Z) : Prop :=
  exists b' n,
    setter (Some b) size r = (true, Some b', n) /\
    length b' = length b /\ 1 <= n <= 4 /\
    forall size', n <= size' -> getter (Some b') size' = (true, r, n).

(** The sequence length that a UTF-8 lead byte announces, after the branch
    comments of [getUTF8]; bytes that start no sequence count as one unit. *)
Definition utf8_width (lead : Z) : Z :=
  if lead <=? 0xbf then 1
  else if lead <=? 0xdf then 2
  else if lead <=? 0xef then 3
  else if lead <=? 0xf7 then 4
  else 1.

(** The word that [setUTF16le] and [setUTF16be] store for
    [surrogate = unicode - 0x10000]. *)
Definition surrogate_word (s : Z) : Z :=
  Z.lor (Z.land (Z.lor (sar32 s 10) (shl32 s 16)) 0x03ff03ff) 0xdc00d800.

(** A cursor over [length] bytes that are really there. *)
Definition cursor_ok (text : utf_text.t) : Prop :=
  exists b,
    utf_text.buffer text = Some b /\
    0 <= utf_text.offset text < 2 ^ 32 /\
    0 <= utf_text.length text < 2 ^ 32 /\
    utf_text.length text <= Z.of_nat (length b).

(** Bytes left between the offset and the end of the cursor. *)
Definition remaining (text : utf_text.t) : Z :=
  if utf_text.offset text <=? utf_text.length text
  then utf_text.length text - utf_text.offset text else 0.

(** The bytes a view covers, from its offset up to its length. *)
Definition view_bytes (text : utf_text.t) : list byte :=
  match utf_text.buffer text with
  | Some b =>
      take (Z.to_nat (utf_text.length text - utf_text.offset text))
           (drop (Z.to_nat (utf_text.offset text)) b)
  | None => []
  end.

(** ** Notions for the further properties *)

(** The number of bytes the encoder of [E] produces for [v], read off the
    branches of [setUTF8], [setUTF16le] .. [setUTF32be]. *)
Definition units_needed (E : UTF_TYPE) (v : Z) : Z :=
  match E with
  | UTF8 =>
      if v <=? 0x7f then 1 else if v <=? 0x7ff then 2
      else if v <=? 0xffff then 3 else 4
  | OTHER =>
      if v =? 0 then 2
      else if v <=? 0x7f then 1 else if v <=? 0x7ff then 2
      else if v <=? 0xffff then 3 else 4
  | UTF16le | UTF16be => if v <=? 0xffff then 2 else 4
  | UTF32le | UTF32be => 4
  end.

(** The byte-order mark that [identifyUTF] tests for each encoding. *)
Definition bom (t : UTF_TYPE) : list Z :=
  match t with
  | UTF8 => [0xef; 0xbb; 0xbf]
  | UTF16le => [0xff; 0xfe]
  | UTF16be => [0xfe; 0xff]
  | UTF32le => [0xff; 0xfe; 0x00; 0x00]
  | UTF32be => [0x00; 0x00; 0xfe; 0xff]
  | OTHER => []
  end.

(** The first [n] bytes of [b], as loaded. *)
Definition leading (b : list byte) (n : nat) : list Z :=
  map (ld b) (seq 0 n).

(** ** String sizes and lengths *)

(** [buffer[index + k]], the index being a [uint32_t]. *)
Definition at_index (b : list byte) (index k : Z) : Z :=
  ld b (Z.to_nat (add32 index k)).

(** The [uint16_t] that [(hi << 8) + lo] leaves. *)
Definition unit16 (hi lo : Z) : Z := (Z.shiftl hi 8 + lo) mod 2 ^ 16.

(** The loop of [strsizeUTF8(buffer)], from [index] on; [None] when [fuel]
    iterations did not reach a terminator. *)
Fixpoint strsizeUTF8_loop (fuel : nat) (b : list byte) (index : Z) : option Z :=
  if negb (at_index b index 0 =? 0) then
    match fuel with
    | O => None
    | S fuel' => strsizeUTF8_loop fuel' b (add32 index 1)
    end
  else Some index.

Definition strsizeUTF8 (fuel : nat) (buffer : ptr) : option Z :=
  match buffer with
  | Some b => strsizeUTF8_loop fuel b 0
  | None => Some 0
  end.

Fixpoint strsizeUTF16_loop (fuel : nat) (b : list byte) (index : Z) : option Z :=
  if negb (at_index b index 0 =? 0) || negb (at_index b index 1 =? 0) then
    match fuel with
    | O => None
    | S fuel' => strsizeUTF16_loop fuel' b (add32 index 2)
    end
  else Some index.

Definition strsizeUTF16 (fuel : nat) (buffer : ptr) : option Z :=
  match buffer with
  | Some b => strsizeUTF16_loop fuel b 0
  | None => Some 0
  end.

Fixpoint strsizeUTF32_loop (fuel : nat) (b : list byte) (index : Z) : option Z :=
  if negb (at_index b index 0 =? 0) || negb (at_index b index 1 =? 0)
     || negb (at_index b index 2 =? 0) || negb (at_index b index 3 =? 0) then
    match fuel with
    | O => None
    | S fuel' => strsizeUTF32_loop fuel' b (add32 index 4)
    end
  else Some index.

Definition strsizeUTF32 (fuel : nat) (buffer : ptr) : option Z :=
  match buffer with
  | Some b => strsizeUTF32_loop fuel b 0
  | None => Some 0
  end.

(** The loop of [strlenUTF8(buffer)]. *)
Fixpoint strlenUTF8_loop (fuel : nat) (b : list byte) (index count : Z)
  : option Z :=
  let byte := at_index b index 0 in
  if negb (byte =? 0) then
    match fuel with
    | O => None
    | S fuel' =>
        let count :=
          if negb (Z.land byte 0xc0 =? 0x80) then add32 count 1 else count in
        strlenUTF8_loop fuel' b (add32 index 1) count
    end
  else Some count.

Definition strlenUTF8 (fuel : nat) (buffer : ptr) : option Z :=
  match buffer with
  | Some b => strlenUTF8_loop fuel b 0 0
  | None => Some 0
  end.

(** The loop of [strlenUTF16le(buffer)]. *)
Fixpoint strlenUTF16le_loop (fuel : nat) (b : list byte) (index count : Z)
  : option Z :=
  let value := unit16 (at_index b index 1) (at_index b index 0) in
  if negb (value =? 0) then
    match fuel with
    | O => None
    | S fuel' =>
        let index :=
          if Z.land value 0xfc00 =? 0xd800 then
            let value := unit16 (at_index b index 3) (at_index b index 2) in
            if Z.land value 0xfc00 =? 0xdc00 then add32 index 2 else index
          else index in
        strlenUTF16le_loop fuel' b (add32 index 2) (add32 count 1)
    end
  else Some count.

Definition strlenUTF16le (fuel : nat) (buffer : ptr) : option Z :=
  match buffer with
  | Some b => strlenUTF16le_loop fuel b 0 0
  | None => Some 0
  end.

(** The loop of [strlenUTF16be(buffer)]. *)
Fixpoint strlenUTF16be_loop (fuel : nat) (b : list byte) (index count : Z)
  : option Z :=
  let value := unit16 (at_index b index 0) (at_index b index 1) in
  if negb (value =? 0) then
    match fuel with
    | O => None
    | S fuel' =>
        let index :=
          if Z.land value 0xfc00 =? 0xd800 then
            let value := unit16 (at_index b index 2) (at_index b index 3) in
            if Z.land value 0xfc00 =? 0xdc00 then add32 index 2 else index
          else index in
        strlenUTF16be_loop fuel' b (add32 index 2) (add32 count 1)
    end
  else Some count.

Definition strlenUTF16be (fuel : nat) (buffer : ptr) : option Z :=
  match buffer with
  | Some b => strlenUTF16be_loop fuel b 0 0
  | None => Some 0
  end.

(** The loop of [strlenUTF32(buffer)]. *)
Fixpoint strlenUTF32_loop (fuel : nat) (b : list byte) (index count : Z)
  : option Z :=
  if negb (at_index b index 0 =? 0) || negb (at_index b index 1 =? 0)
     || negb (at_index b index 2 =? 0) || negb (at_index b index 3 =? 0) then
    match fuel with
    | O => None
    | S fuel' => strlenUTF32_loop fuel' b (add32 index 4) (add32 count 1)
    end
  else Some count.

Definition strlenUTF32 (fuel : nat) (buffer : ptr) : option Z :=
  match buffer with
  | Some b => strlenUTF32_loop fuel b 0 0
  | None => Some 0
  end.

(** The loop of [strlenUTF8(buffer, size)]: [limit] counts down from
    [size] to zero, one byte a turn. *)
Fixpoint strlenUTF8_sized_loop (limit : nat) (b : list byte) (index count : Z)
  : Z :=
  match limit with
  | O => count
  | S limit' =>
      let count :=
        if negb (Z.land (at_index b index 0) 0xc0 =? 0x80)
        then add32 count 1 else count in
      strlenUTF8_sized_loop limit' b (add32 index 1) count
  end.

Definition strlenUTF8_sized (buffer : ptr) (size : Z) : Z :=
  match buffer with
  | Some b => strlenUTF8_sized_loop (Z.to_nat size) b 0 0
  | None => 0
  end.

(** The loop of [strlenUTF16le(buffer, size)]; [None] when [fuel]
    iterations did not bring [limit] below 2. *)
Fixpoint strlenUTF16le_sized_loop (fuel : nat) (b : list byte)
    (index limit count : Z) : option Z :=
  if 2 <=? limit then
    match fuel with
    | O => None
    | S fuel' =>
        let value := unit16 (at_index b index 1) (at_index b index 0) in
        let '(index, limit) :=
          if (Z.land value 0xfc00 =? 0xd800) && (4 <=? limit) then
            let value := unit16 (at_index b index 3) (at_index b index 2) in
            if Z.land value 0xfc00 =? 0xdc00
            then (add32 index 2, sub32 limit 2) else (index, limit)
          else (index, limit) in
        strlenUTF16le_sized_loop fuel' b (add32 index 2) (sub32 limit 2)
                                 (add32 count 1)
    end
  else Some count.

Definition strlenUTF16le_sized (fuel : nat) (buffer : ptr) (size : Z)
  : option Z :=
  match buffer with
  | Some b => strlenUTF16le_sized_loop fuel b 0 size 0
  | None => Some 0
  end.

Fixpoint strlenUTF16be_sized_loop (fuel : nat) (b : list byte)
    (index limit count : Z) : option Z :=
  if 2 <=? limit then
    match fuel with
    | O => None
    | S fuel' =>
        let value := unit16 (at_index b index 0) (at_index b index 1) in
        let '(index, limit) :=
          if (Z.land value 0xfc00 =? 0xd800) && (4 <=? limit) then
            let value := unit16 (at_index b index 2) (at_index b index 3) in
            if Z.land value 0xfc00 =? 0xdc00
            then (add32 index 2, sub32 limit 2) else (index, limit)
          else (index, limit) in
        strlenUTF16be_sized_loop fuel' b (add32 index 2) (sub32 limit 2)
                                 (add32 count 1)
    end
  else Some count.

Definition strlenUTF16be_sized (fuel : nat) (buffer : ptr) (size : Z)
  : option Z :=
  match buffer with
  | Some b => strlenUTF16be_sized_loop fuel b 0 size 0
  | None => Some 0
  end.

(** ** Notions for the string functions *)

(** A byte that is no UTF-8 continuation byte: it starts a code point. *)
Definition is_lead (c : byte) : bool :=
  negb (Z.land (byte.unsigned c) 0xc0 =? 0x80).

Definition count_leads (l : list byte) : Z :=
  Z.of_nat (length (filter (fun c => is_lead c = true) l)).

(** The bytes an encoder produces for [r], taken from what it writes into
    a four-byte buffer. *)
Definition encoded (setter : ptr -> Z -> Z -> bool * ptr * Z) (r : Z)
  : list byte :=
  match setter (Some [Byte.x00; Byte.x00; Byte.x00; Byte.x00]) 4 r with
  | (true, Some b, n) => take (Z.to_nat n) b
  | _ => []
  end.

Definition utf8_bytes (use_java : bool) (r : Z) : list byte :=
  encoded (fun p s u => setUTF8 p s u use_java) r.

Definition utf16le_bytes (r : Z) : list byte := encoded setUTF16le r.

Definition utf16be_bytes (r : Z) : list byte := encoded setUTF16be r.

(** The encoded form of a sequence of code points. *)
Definition utf8_string (use_java : bool) (rs : list Z) : list byte :=
  flat_map (utf8_bytes use_java) rs.

Definition utf16le_string (rs : list Z) : list byte :=
  flat_map utf16le_bytes rs.

Definition utf16be_string (rs : list Z) : list byte :=
  flat_map utf16be_bytes rs.

(** A buffer made of code units of [width] bytes, none of them zero in
    all its bytes. *)
Definition nonzero_units (width : nat) (units : list (list byte)) : Prop :=
  Forall (fun u => length u = width /\ u <> replicate width Byte.x00) units.

(** One encoded code point as the loops of [strlenUTF16le] and
    [strlenUTF16be] see it, [unit] reading the code unit that two bytes
    make in the order of the form: a single unit that holds [r], or a unit
    of the high surrogate range followed by one of the low surrogate
    range. *)
Definition utf16_shape (unit : byte -> byte -> Z) (r : Z) (l : list byte)
  : Prop :=
  (exists a b, l = [a; b] /\ unit a b = r /\ r <= 0xffff)
  \/ (exists a b c d,
        l = [a; b; c; d]
        /\ Z.land (unit a b) 0xfc00 = 0xd800
        /\ Z.land (unit c d) 0xfc00 = 0xdc00).

(** Two ASCII characters in the encoding [t], without a byte-order mark. *)
Definition ascii_text (t : UTF_TYPE) (c1 c2 : byte) : list byte :=
  match t with
  | UTF8 => [c1; c2]
  | UTF16le => [c1; Byte.x00; c2; Byte.x00]
  | UTF16be => [Byte.x00; c1; Byte.x00; c2]
  | UTF32le => [c1; Byte.x00; Byte.x00; Byte.x00; c2; Byte.x00; Byte.x00; Byte.x00]
  | UTF32be => [Byte.x00; Byte.x00; Byte.x00; c1; Byte.x00; Byte.x00; Byte.x00; c2]
  | OTHER => []
  end.

(** The values that [getNLF] takes for a new line: line feed, vertical
    tab, form feed, carriage return, next line, line separator and
    paragraph separator. *)
Definition is_newline (u : Z) : bool :=
  (u =? 0x0a) || (u =? 0x0b) || (u =? 0x0c) || (u =? 0x0d) || (u =? 0x85)
  || (u =? 0x2028) || (u =? 0x2029).

(** A carriage return followed by a line feed, or a line feed followed by
    a carriage return. *)
Definition is_newline_pair (first second : Z) : bool :=
  ((first =? 0x0d) && (second =? 0x0a)) || ((first =? 0x0a) && (second =? 0x0d)).

(** ** Proof automation *)

Ltac split_ifs :=
  repeat match goal with
    | H : context [if ?c then _ else _] |- _ => destruct c eqn:?
    end.

Ltac goal_ifs :=
  repeat match goal with
    | |- context [if ?c then _ else _] => destruct c eqn:?
    end.

(** Boolean tests in the context become propositions. *)
Ltac bools :=
  repeat match goal with
    | H : _ && _ = true |- _ => apply andb_true_iff in H; destruct H
    | H : _ || _ = true |- _ => apply orb_true_iff in H; destruct H
    | H : _ && _ = false |- _ => apply andb_false_iff in H; destruct H
    | H : _ || _ = false |- _ => apply orb_false_iff in H; destruct H
    | H : negb _ = true |- _ => apply negb_true_iff in H
    | H : negb _ = false |- _ => apply negb_false_iff in H
    | H : (_ <=? _) = true |- _ => apply Z.leb_le in H
    | H : (_ <=? _) = false |- _ => apply Z.leb_gt in H
    | H : (_ <? _) = true |- _ => apply Z.ltb_lt in H
    | H : (_ <? _) = false |- _ => apply Z.ltb_ge in H
    | H : (_ =? _) = true |- _ => apply Z.eqb_eq in H
    | H : (_ =? _) = false |- _ => apply Z.eqb_neq in H
    end.

Ltac div_lia := Z.div_mod_to_equations; lia.

(** Wrapped word arithmetic, as linear arithmetic over quotients. *)
Ltac word_arith :=
  unfold add32, shl32, sub32, wrap32 in *;
  rewrite ?Z.shiftl_mul_pow2, ?Z.shiftr_div_pow2 in * by lia;
  Z.div_mod_to_equations; lia.

(** ** Bit operations as arithmetic *)

Section Bits.

Lemma lo8_mod (z : Z) : lo8 z = z mod 256.
Proof. unfold lo8. now rewrite byte.unsigned_of_Z. Qed.

Lemma wrap32_small (z : Z) : 0 <= z < 2 ^ 32 -> wrap32 z = z.
Proof. intros H. unfold wrap32. now apply Z.mod_small. Qed.

Lemma wrap32_range (z : Z) : 0 <= wrap32 z < 2 ^ 32.
Proof. unfold wrap32. apply Z.mod_pos_bound. lia. Qed.

Lemma sar32_nonneg (x k : Z) :
  0 <= x < 2 ^ 31 -> 0 <= k -> sar32 x k = x / 2 ^ k.
Proof.
  intros Hx Hk. unfold sar32, signed32.
  destruct (Z.ltb_spec x (2 ^ 31)) as [_ | Hge]; [ | lia ].
  rewrite Z.shiftr_div_pow2 by exact Hk.
  apply wrap32_small.
  assert (0 < 2 ^ k) by (apply Z.pow_pos_nonneg; lia).
  split.
  - apply Z.div_pos; lia.
  - apply Z.le_lt_trans with x; [ apply Z.div_le_upper_bound; nia | lia ].
Qed.

(** The byte that [static_cast<uint8_t>(w >> k)] selects, also when the
    word is negative as an [int32_t]. *)
Lemma sar32_byte (w k : Z) :
  0 <= w < 2 ^ 32 -> 0 <= k <= 24 -> sar32 w k mod 256 = w / 2 ^ k mod 256.
Proof.
  intros Hw Hk. unfold sar32, signed32, wrap32.
  assert (Hp : 0 < 2 ^ k) by (apply Z.pow_pos_nonneg; lia).
  assert (Hd : (256 | 2 ^ 32)) by (exists (2 ^ 24); reflexivity).
  rewrite Z.mod_mod_divide by exact Hd.
  rewrite Z.shiftr_div_pow2 by lia.
  destruct (w <? 2 ^ 31); [ reflexivity | ].
  replace (w - 2 ^ 32) with (w + - 2 ^ (32 - k) * 2 ^ k).
  - rewrite Z.div_add by lia.
    replace (- 2 ^ (32 - k)) with (- 2 ^ (24 - k) * 256).
    + apply Z.mod_add. lia.
    + change 256 with (2 ^ 8). rewrite Z.mul_opp_l, <- Z.pow_add_r by lia.
      do 2 f_equal. lia.
  - rewrite Z.mul_opp_l, <- Z.pow_add_r by lia.
    replace (32 - k + k) with 32 by lia. lia.
Qed.

Lemma land_low (x k : Z) : 0 <= k -> Z.land x (Z.ones k) = x mod 2 ^ k.
Proof. intros Hk. now apply Z.land_ones. Qed.

(** Masking away the [k] low bits of a [w]-bit value. *)
Lemma land_high (w k y : Z) :
  0 <= k -> 0 <= y < 2 ^ w ->
  Z.land y (Z.land (Z.ones w) (Z.lnot (Z.ones k))) = y / 2 ^ k * 2 ^ k.
Proof.
  intros Hk Hy.
  assert (Hw : 0 <= w).
  { destruct (Z.le_gt_cases 0 w) as [Hw | Hw]; [ exact Hw | ].
    rewrite (Z.pow_neg_r 2 w) in Hy by exact Hw. lia. }
  rewrite Z.land_assoc, (Z.land_ones y w) by exact Hw.
  rewrite Z.mod_small by exact Hy.
  rewrite <- Z.ldiff_land, Z.ldiff_ones_r by exact Hk.
  rewrite Z.shiftl_mul_pow2, Z.shiftr_div_pow2 by exact Hk.
  reflexivity.
Qed.

(** Or-ing bits above a [k]-bit value adds them. *)
Lemma lor_high (k a c : Z) :
  0 <= k -> 0 <= a < 2 ^ k -> Z.lor a (c * 2 ^ k) = a + c * 2 ^ k.
Proof.
  intros Hk Ha.
  rewrite <- Z.lxor_lor; [ symmetry; apply Z.add_nocarry_lxor | ].
  all: apply Z.bits_inj'; intros n Hn; rewrite Z.land_spec, Z.bits_0.
  all: destruct (Z.lt_ge_cases n k) as [Hlt | Hge].
  all: try (rewrite Z.mul_pow2_bits_low by lia; apply andb_false_r).
  all: rewrite <- (Z.mod_small a (2 ^ k)) by exact Ha.
  all: rewrite Z.mod_pow2_bits_high by lia; reflexivity.
Qed.

Lemma land_3f (x : Z) : Z.land x 0x3f = x mod 64.
Proof. exact (land_low x 6 ltac:(lia)). Qed.

Lemma land_1f (x : Z) : Z.land x 0x1f = x mod 32.
Proof. exact (land_low x 5 ltac:(lia)). Qed.

Lemma land_0f (x : Z) : Z.land x 0x0f = x mod 16.
Proof. exact (land_low x 4 ltac:(lia)). Qed.

Lemma land_07 (x : Z) : Z.land x 0x07 = x mod 8.
Proof. exact (land_low x 3 ltac:(lia)). Qed.

Lemma land_3ff (x : Z) : Z.land x 0x3ff = x mod 1024.
Proof. exact (land_low x 10 ltac:(lia)). Qed.

Lemma land_c0 (x : Z) : 0 <= x < 256 -> Z.land x 0xc0 = x / 64 * 64.
Proof. intros H. exact (land_high 8 6 x ltac:(lia) H). Qed.

Lemma land_f800 (u : Z) :
  0 <= u < 2 ^ 32 -> Z.land u 0xfffff800 = u / 2048 * 2048.
Proof. intros H. exact (land_high 32 11 u ltac:(lia) H). Qed.

Lemma land_fc00 (u : Z) :
  0 <= u < 2 ^ 32 -> Z.land u 0xfffffc00 = u / 1024 * 1024.
Proof. intros H. exact (land_high 32 10 u ltac:(lia) H). Qed.

(** The test [(u & 0xfffff800u) != 0x0000d800u] is the surrogate range. *)
Lemma is_surrogate_test (u : Z) :
  0 <= u < 2 ^ 32 ->
  (Z.land u 0xfffff800 =? 0xd800) = (0xd800 <=? u) && (u <=? 0xdfff).
Proof.
  intros H. rewrite land_f800 by exact H.
  destruct (Z.eqb_spec (u / 2048 * 2048) 0xd800),
    (Z.leb_spec 0xd800 u), (Z.leb_spec u 0xdfff);
    simpl; try reflexivity; exfalso; div_lia.
Qed.

Lemma lor_cont (x : Z) : 0 <= x < 64 -> Z.lor x 0x80 = 0x80 + x.
Proof. intros H. rewrite Z.add_comm. exact (lor_high 6 x 2 ltac:(lia) H). Qed.

Lemma lor_lead2 (x : Z) : 0 <= x < 32 -> Z.lor x 0xc0 = 0xc0 + x.
Proof. intros H. rewrite Z.add_comm. exact (lor_high 5 x 6 ltac:(lia) H). Qed.

Lemma lor_lead3 (x : Z) : 0 <= x < 16 -> Z.lor x 0xe0 = 0xe0 + x.
Proof. intros H. rewrite Z.add_comm. exact (lor_high 4 x 14 ltac:(lia) H). Qed.

Lemma lor_lead4 (x : Z) : 0 <= x < 8 -> Z.lor x 0xf0 = 0xf0 + x.
Proof. intros H. rewrite Z.add_comm. exact (lor_high 3 x 30 ltac:(lia) H). Qed.

(** The failure value of [getUTF8]: [unicode |= 0x80000000u]. *)
Lemma lor_sentinel (x : Z) :
  0 <= x < 256 -> Z.lor x 0x80000000 = 0x80000000 + x.
Proof. intros H. rewrite Z.add_comm. exact (lor_high 31 x 1 ltac:(lia) ltac:(lia)). Qed.

End Bits.

Ltac masks :=
  unfold add32, shl32, sub32 in *;
  rewrite ?land_3f, ?land_1f, ?land_0f, ?land_07, ?land_3ff in *;
  rewrite ?land_f800, ?land_fc00 in * by apply wrap32_range.

(** ** Loads and stores *)

Section Buffers.

Lemma ld_range (b : list byte) (i : nat) : 0 <= ld b i < 256.
Proof. unfold ld. apply byte.unsigned_range. Qed.

Lemma ld_st_eq (b : list byte) (i : nat) (z : Z) :
  (i < length b)%nat -> ld (st b i z) i = z mod 256.
Proof.
  intros Hi. unfold ld, st.
  rewrite list_lookup_insert_eq by exact Hi. simpl.
  now rewrite byte.unsigned_of_Z.
Qed.

Lemma ld_st_ne (b : list byte) (i j : nat) (z : Z) :
  i <> j -> ld (st b j z) i = ld b i.
Proof.
  intros Hne. unfold ld, st.
  rewrite list_lookup_insert_ne by congruence. reflexivity.
Qed.

Lemma length_st (b : list byte) (i : nat) (z : Z) :
  length (st b i z) = length b.
Proof. apply length_insert. Qed.

(** Writing through [&buffer[k]] nothing leaves the buffer as it was. *)
Lemma ptr_merge_same (buffer : ptr) (k : Z) :
  ptr_merge buffer k (ptr_at buffer k) = buffer.
Proof.
  destruct buffer as [b | ]; simpl; [ | reflexivity ].
  now rewrite take_drop.
Qed.

End Buffers.

(** Reads back what a sequence of stores left at an index. *)
Ltac loads :=
  repeat match goal with
    | |- context [ld (st ?b ?j ?z) ?i] =>
        first [ rewrite (ld_st_ne b i j z) by lia
              | rewrite (ld_st_eq b i z) by (rewrite ?length_st; lia) ]
    end.

(** ** A successful strict decode yields a rune *)

Section DecodedRune.

Ltac decoded_rune getter :=
  unfold getter; intros H;
  match type of H with
  | match ?buffer with _ => _ end = _ =>
      let b := fresh "b" in
      destruct buffer as [b | ]; [ | discriminate ];
      pose proof (ld_range b 0); pose proof (ld_range b 1);
      pose proof (ld_range b 2); pose proof (ld_range b 3)
  end;
  cbv zeta in H;
  split_ifs; try discriminate; injection H as <- <-;
  masks; bools; unfold is_rune; word_arith.

Lemma getUTF8_rune (buffer : ptr) (size : Z) (use_java : bool) (u n : Z) :
  getUTF8 buffer size use_java = (true, u, n) -> is_rune u.
Proof. decoded_rune getUTF8. Qed.

Lemma getUTF16le_rune (buffer : ptr) (size u n : Z) :
  getUTF16le buffer size = (true, u, n) -> is_rune u.
Proof. decoded_rune getUTF16le. Qed.

Lemma getUTF16be_rune (buffer : ptr) (size u n : Z) :
  getUTF16be buffer size = (true, u, n) -> is_rune u.
Proof. decoded_rune getUTF16be. Qed.

Lemma getUTF32le_rune (buffer : ptr) (size u n : Z) :
  getUTF32le buffer size = (true, u, n) -> is_rune u.
Proof. decoded_rune getUTF32le. Qed.

Lemma getUTF32be_rune (buffer : ptr) (size u n : Z) :
  getUTF32be buffer size = (true, u, n) -> is_rune u.
Proof. decoded_rune getUTF32be. Qed.

End DecodedRune.

(** ** Encoding then decoding *)

Section RoundTrip.

Lemma cont_test (x : Z) : 0 <= x < 64 -> Z.land (0x80 + x) 0xc0 = 0x80.
Proof. intros H. rewrite land_c0 by lia. div_lia. Qed.

(** The continuation byte that carries bits [k .. k+5] of [r]. *)
Lemma cont_byte (r k : Z) :
  0 <= r < 2 ^ 31 -> 0 <= k ->
  Z.lor (Z.land (lo8 (sar32 r k)) 0x3f) 0x80 = 0x80 + r / 2 ^ k mod 64.
Proof.
  intros Hr Hk. rewrite sar32_nonneg, lo8_mod, land_3f by assumption.
  rewrite lor_cont by (apply Z.mod_pos_bound; lia).
  f_equal. div_lia.
Qed.

Lemma cont_byte0 (r : Z) :
  Z.lor (Z.land (lo8 r) 0x3f) 0x80 = 0x80 + r mod 64.
Proof.
  rewrite lo8_mod, land_3f.
  rewrite lor_cont by (apply Z.mod_pos_bound; lia).
  f_equal. div_lia.
Qed.

Lemma lead_byte (r k : Z) :
  0 <= r < 2 ^ 31 -> 0 <= k -> 0 <= r / 2 ^ k < 256 ->
  lo8 (sar32 r k) = r / 2 ^ k.
Proof.
  intros Hr Hk Hs. rewrite sar32_nonneg, lo8_mod by assumption.
  now apply Z.mod_small.
Qed.

(** The encoder accepts, and the goal that remains is the decoder run
    on the bytes just stored. *)
Ltac set_then_get setter getter :=
  unfold round_trips, setter; cbv zeta;
  rewrite ?is_surrogate_test by lia;
  goal_ifs; bools; try lia; try solve [ intuition congruence ];
  eexists _, _; (split; [ reflexivity | ]);
  rewrite ?length_st; (split; [ reflexivity | ]); (split; [ lia | ]);
  intros size' Hsize'; unfold getter; cbv zeta; loads.

Ltac utf8_decode :=
  rewrite ?cont_byte by (try split; try lia; div_lia);
  rewrite ?cont_byte0;
  rewrite ?lead_byte by (try split; try lia; div_lia);
  rewrite ?lor_lead2, ?lor_lead3, ?lor_lead4 by div_lia;
  rewrite ?(Z.mod_small (_ + _) 256) by div_lia;
  rewrite ?cont_test by div_lia;
  rewrite lo8_mod; masks;
  goal_ifs; bools; try reflexivity; try (exfalso; word_arith);
  f_equal; f_equal; word_arith.

Lemma utf8_round_trip_java_null (b : list byte) (size : Z) :
  2 <= size -> (2 <= length b)%nat ->
  round_trips (fun p s u => setUTF8 p s u true) (fun p s => getUTF8 p s true)
              0 b size.
Proof.
  intros Hsize Hlen. set_then_get setUTF8 getUTF8.
  rewrite lo8_mod. simpl. goal_ifs; bools; try lia; reflexivity.
Qed.

Lemma utf8_round_trip_1 (java : bool) (r : Z) (b : list byte) (size : Z) :
  0 <= r <= 0x7f -> (java = false \/ r <> 0) ->
  1 <= size -> (1 <= length b)%nat ->
  round_trips (fun p s u => setUTF8 p s u java) (fun p s => getUTF8 p s java)
              r b size.
Proof.
  intros Hr Hj Hsize Hlen. set_then_get setUTF8 getUTF8.
  all: rewrite lo8_mod, !(Z.mod_small r 256), Z.mod_small by lia.
  all: goal_ifs; bools; try lia; reflexivity.
Qed.

Lemma utf8_round_trip_2 (java : bool) (r : Z) (b : list byte) (size : Z) :
  0x80 <= r <= 0x7ff -> 2 <= size -> (2 <= length b)%nat ->
  round_trips (fun p s u => setUTF8 p s u java) (fun p s => getUTF8 p s java)
              r b size.
Proof. intros Hr Hsize Hlen. set_then_get setUTF8 getUTF8; utf8_decode. Qed.

Lemma utf8_round_trip_3 (java : bool) (r : Z) (b : list byte) (size : Z) :
  0x800 <= r <= 0xffff -> ~ (0xd800 <= r <= 0xdfff) ->
  3 <= size -> (3 <= length b)%nat ->
  round_trips (fun p s u => setUTF8 p s u java) (fun p s => getUTF8 p s java)
              r b size.
Proof. intros Hr Hs Hsize Hlen. set_then_get setUTF8 getUTF8; utf8_decode. Qed.

Lemma utf8_round_trip_4 (java : bool) (r : Z) (b : list byte) (size : Z) :
  0x10000 <= r <= 0x10ffff -> 4 <= size -> (4 <= length b)%nat ->
  round_trips (fun p s u => setUTF8 p s u java) (fun p s => getUTF8 p s java)
              r b size.
Proof. intros Hr Hsize Hlen. set_then_get setUTF8 getUTF8; utf8_decode. Qed.

Lemma utf8_round_trip (java : bool) (r : Z) (b : list byte) (size : Z) :
  is_rune r -> 4 <= size <= Z.of_nat (length b) ->
  round_trips (fun p s u => setUTF8 p s u java) (fun p s => getUTF8 p s java)
              r b size.
Proof.
  intros [Hr Hs] Hsize.
  assert (Hlen : (4 <= length b)%nat) by lia.
  destruct (Z.le_gt_cases r 0x7f) as [H1 | H1].
  - destruct java.
    + destruct (Z.eq_dec r 0) as [-> | Hnz].
      * apply utf8_round_trip_java_null; lia.
      * apply utf8_round_trip_1; auto; lia.
    + apply utf8_round_trip_1; auto; lia.
  - destruct (Z.le_gt_cases r 0x7ff) as [H2 | H2];
      [ apply utf8_round_trip_2; lia | ].
    destruct (Z.le_gt_cases r 0xffff) as [H3 | H3];
      [ apply utf8_round_trip_3; lia | ].
    apply utf8_round_trip_4; lia.
Qed.

(** The lower half of the stored word is the high surrogate. *)
Lemma surrogate_word_low (s : Z) :
  0 <= s < 2 ^ 20 -> surrogate_word s mod 2 ^ 16 = 0xd800 + s / 1024.
Proof.
  intros Hs. unfold surrogate_word.
  rewrite <- (Z.land_ones _ 16) by lia.
  rewrite Z.land_lor_distr_l, <- Z.land_assoc.
  change (Z.land 0x03ff03ff (Z.ones 16)) with (Z.ones 10).
  change (Z.land 0xdc00d800 (Z.ones 16)) with (54 * 2 ^ 10).
  rewrite Z.land_lor_distr_l, !Z.land_ones by lia.
  rewrite sar32_nonneg by lia. unfold shl32, wrap32.
  rewrite Z.shiftl_mul_pow2 by lia.
  replace ((s * 2 ^ 16) mod 2 ^ 32 mod 2 ^ 10) with 0 by div_lia.
  rewrite Z.lor_0_r, lor_high by (try lia; apply Z.mod_pos_bound; lia).
  div_lia.
Qed.

(** The upper half of the stored word is the low surrogate. *)
Lemma surrogate_word_high (s : Z) :
  0 <= s < 2 ^ 20 -> surrogate_word s / 2 ^ 16 = 0xdc00 + s mod 1024.
Proof.
  intros Hs. unfold surrogate_word.
  rewrite <- (Z.shiftr_div_pow2 _ 16) by lia.
  rewrite Z.shiftr_lor, Z.shiftr_land, Z.shiftr_lor.
  change (Z.shiftr 0x03ff03ff 16) with (Z.ones 10).
  change (Z.shiftr 0xdc00d800 16) with (55 * 2 ^ 10).
  rewrite Z.land_lor_distr_l, !Z.land_ones by lia.
  rewrite !Z.shiftr_div_pow2 by lia.
  rewrite sar32_nonneg by lia. unfold shl32, wrap32.
  rewrite Z.shiftl_mul_pow2 by lia.
  replace (s / 2 ^ 10 / 2 ^ 16 mod 2 ^ 10) with 0 by div_lia.
  rewrite Z.lor_0_l, lor_high by (try lia; apply Z.mod_pos_bound; lia).
  div_lia.
Qed.

Lemma surrogate_word_range (s : Z) :
  0 <= s < 2 ^ 20 -> 2 ^ 31 <= surrogate_word s < 2 ^ 32.
Proof.
  intros Hs.
  pose proof (surrogate_word_low s Hs). pose proof (surrogate_word_high s Hs).
  div_lia.
Qed.

Lemma halfword_low (w : Z) :
  0 <= w < 2 ^ 32 ->
  add32 (shl32 (w / 2 ^ 8 mod 256) 8) (w mod 256) = w mod 2 ^ 16.
Proof. intros Hw. word_arith. Qed.

Lemma halfword_high (w : Z) :
  0 <= w < 2 ^ 32 ->
  add32 (shl32 (w / 2 ^ 24 mod 256) 8) (w / 2 ^ 16 mod 256) = w / 2 ^ 16.
Proof. intros Hw. word_arith. Qed.

Lemma word_bytes (w : Z) :
  0 <= w < 2 ^ 32 ->
  add32 (shl32 (add32 (shl32 (add32 (shl32 (w / 2 ^ 24 mod 256) 8)
                                    (w / 2 ^ 16 mod 256)) 8)
                      (w / 2 ^ 8 mod 256)) 8)
        (w mod 256) = w.
Proof. intros Hw. word_arith. Qed.

Ltac utf16_decode r :=
  try fold (surrogate_word (sub32 r 0x10000));
  assert (Hsub : sub32 r 0x10000 = r - 0x10000 /\ 0 <= r - 0x10000 < 2 ^ 20
                 \/ r < 0x10000)
    by (destruct (Z.lt_ge_cases r 0x10000);
        [ right; assumption | left; word_arith ]);
  destruct Hsub as [[Hsub Hs20] | Hsub]; rewrite ?Hsub; try lia;
  try (pose proof (surrogate_word_range (r - 0x10000) ltac:(lia)));
  rewrite ?sar32_byte by lia;
  rewrite ?halfword_low, ?halfword_high by lia;
  rewrite ?surrogate_word_low, ?surrogate_word_high by lia;
  rewrite ?(Z.mod_small r (2 ^ 16)) by lia;
  rewrite ?is_surrogate_test by div_lia;
  masks; rewrite ?land_fc00 by div_lia;
  goal_ifs; bools; try reflexivity; try (exfalso; word_arith);
  f_equal; f_equal; word_arith.

Lemma utf16le_round_trip (r : Z) (b : list byte) (size : Z) :
  is_rune r -> 4 <= size <= Z.of_nat (length b) ->
  round_trips setUTF16le getUTF16le r b size.
Proof.
  intros [Hr Hs] Hsize.
  assert (Hlen : (4 <= length b)%nat) by lia.
  set_then_get setUTF16le getUTF16le; utf16_decode r.
Qed.

Lemma utf16be_round_trip (r : Z) (b : list byte) (size : Z) :
  is_rune r -> 4 <= size <= Z.of_nat (length b) ->
  round_trips setUTF16be getUTF16be r b size.
Proof.
  intros [Hr Hs] Hsize.
  assert (Hlen : (4 <= length b)%nat) by lia.
  set_then_get setUTF16be getUTF16be; utf16_decode r.
Qed.

Ltac utf32_decode :=
  rewrite ?sar32_byte by lia;
  rewrite word_bytes by lia;
  rewrite ?is_surrogate_test by lia;
  goal_ifs; bools; try reflexivity; exfalso; lia.

Lemma utf32le_round_trip (r : Z) (b : list byte) (size : Z) :
  is_rune r -> 4 <= size <= Z.of_nat (length b) ->
  round_trips setUTF32le getUTF32le r b size.
Proof.
  intros [Hr Hs] Hsize.
  assert (Hlen : (4 <= length b)%nat) by lia.
  set_then_get setUTF32le getUTF32le; utf32_decode.
Qed.

Lemma utf32be_round_trip (r : Z) (b : list byte) (size : Z) :
  is_rune r -> 4 <= size <= Z.of_nat (length b) ->
  round_trips setUTF32be getUTF32be r b size.
Proof.
  intros [Hr Hs] Hsize.
  assert (Hlen : (4 <= length b)%nat) by lia.
  set_then_get setUTF32be getUTF32be; utf32_decode.
Qed.

End RoundTrip.

(** ** How many bytes the primitives report *)

Section ReportedBytes.

Variable cp1252ToUnicode : Z -> option Z.
Variable unicodeToCP1252 : Z -> option Z.

Ltac reported H :=
  cbv zeta in H; split_ifs;
  repeat match type of H with
    | context [match ?t with Some _ => _ | None => _ end] => destruct t
    end;
  injection H as <- <- <-;
  (split; intros; try discriminate); bools; goal_ifs; bools;
  try (split; [ | reflexivity ]); lia.

(** A successful decode consumed between one byte and [size] bytes; a
    failed one reports one code unit, or nothing when less than one code
    unit was available. *)
Lemma get_reported (h : IUTF.handler) (b : list byte) (size : Z)
    (ok : bool) (u n : Z) :
  served cp1252ToUnicode unicodeToCP1252 h ->
  IUTF.get h (Some b) size = (ok, u, n) ->
  (ok = true -> 1 <= n <= size) /\
  (ok = false -> n = if IUTF.unitSize h <=? size then IUTF.unitSize h else 0).
Proof.
  intros [[E ->] | [O ->]]; [ destruct E | destruct O ]; simpl; intros H.
  - unfold getUTF8 in H. reported H.
  - unfold getUTF16le in H. reported H.
  - unfold getUTF16be in H. reported H.
  - unfold getUTF32le in H. reported H.
  - unfold getUTF32be in H. reported H.
  - unfold getUTF8 in H. reported H.
  - unfold getUTF8 in H. reported H.
  - unfold getBYTE in H. reported H.
  - unfold getBYTE in H. reported H.
  - unfold getCP1252 in H. reported H.
Qed.

(** A successful encode produced between one byte and [size] bytes; a
    failed one reports none and leaves the buffer alone. *)
Lemma set_reported (h : IUTF.handler) (buffer : ptr) (size v : Z)
    (ok : bool) (p : ptr) (n : Z) :
  served cp1252ToUnicode unicodeToCP1252 h ->
  IUTF.set h buffer size v = (ok, p, n) ->
  (ok = true -> 1 <= n <= size) /\ (ok = false -> n = 0 /\ p = buffer).
Proof.
  intros [[E ->] | [O ->]]; [ destruct E | destruct O ]; simpl; intros H;
    destruct buffer as [b | ].
  all: try (injection H as <- <- <-; split; intros;
            [ discriminate | split; reflexivity ]).
  - unfold setUTF8 in H. reported H.
  - unfold setUTF16le in H. reported H.
  - unfold setUTF16be in H. reported H.
  - unfold setUTF32le in H. reported H.
  - unfold setUTF32be in H. reported H.
  - unfold setUTF8 in H. reported H.
  - unfold setUTF8 in H. reported H.
  - unfold setBYTE in H. reported H.
  - unfold setBYTE in H. reported H.
  - unfold setCP1252 in H. reported H.
Qed.

End ReportedBytes.

(** ** The cursor wrappers *)

Section Cursor.

Variable cp1252ToUnicode : Z -> option Z.
Variable unicodeToCP1252 : Z -> option Z.

Lemma sub32_remaining (text : utf_text.t) :
  0 <= utf_text.offset text -> utf_text.length text < 2 ^ 32 ->
  (utf_text.offset text <=? utf_text.length text) = true ->
  sub32 (utf_text.length text) (utf_text.offset text) = remaining text.
Proof.
  intros Ho Hl Hle. unfold remaining. rewrite Hle.
  apply Z.leb_le in Hle. apply wrap32_small. lia.
Qed.

(** [IUTF::get] on a cursor reports what the decoder reports on the
    bytes that remain. *)
Lemma get_text_reported (h : IUTF.handler) (text : utf_text.t)
    (ok : bool) (u n : Z) :
  served cp1252ToUnicode unicodeToCP1252 h ->
  cursor_ok text ->
  IUTF.get_text h text = (ok, u, n) ->
  (ok = true -> 1 <= n <= remaining text) /\
  (ok = false ->
   n = if IUTF.unitSize h <=? remaining text then IUTF.unitSize h else 0).
Proof.
  intros Hh (b & Hb & Ho & Hl & Hcap) Hget. unfold IUTF.get_text in Hget.
  destruct (utf_text.offset text <=? utf_text.length text) eqn:Hle.
  - rewrite sub32_remaining, Hb in Hget by (assumption || lia).
    simpl in Hget. now apply (get_reported _ _ _ _ _ _ _ _ Hh) in Hget.
  - injection Hget as <- <- <-. unfold remaining. rewrite Hle.
    split; [ discriminate | intros _ ].
    destruct Hh as [[E ->] | [O ->]]; [ destruct E | destruct O ]; reflexivity.
Qed.

Lemma set_text_reported (h : IUTF.handler) (text : utf_text.t) (v : Z)
    (ok : bool) (text' : utf_text.t) (n : Z) :
  served cp1252ToUnicode unicodeToCP1252 h ->
  cursor_ok text ->
  IUTF.set_text h text v = (ok, text', n) ->
  utf_text.length text' = utf_text.length text /\
  utf_text.offset text' = utf_text.offset text /\
  (ok = true -> 1 <= n <= remaining text) /\
  (ok = false -> n = 0 /\ text' = text).
Proof.
  intros Hh (b & Hb & Ho & Hl & Hcap) Hset. unfold IUTF.set_text in Hset.
  destruct (utf_text.offset text <=? utf_text.length text) eqn:Hle.
  - rewrite sub32_remaining in Hset by (assumption || lia).
    destruct (IUTF.set _ _ _ _) as [[ok0 sub] n0] eqn:Hprim.
    injection Hset as <- <- <-. apply (set_reported _ _ _ _ _ _ _ _ _ Hh) in Hprim.
    destruct Hprim as [Hok Hfail]. simpl.
    split; [ reflexivity | ]. split; [ reflexivity | ].
    split; [ exact Hok | ].
    intros Hf. destruct (Hfail Hf) as [-> ->].
    split; [ reflexivity | ].
    rewrite ptr_merge_same. now destruct text.
  - injection Hset as <- <- <-.
    split; [ reflexivity | ]. split; [ reflexivity | ].
    split; [ discriminate | ]. intros _. split; reflexivity.
Qed.

(** [IUTF::validate] never reaches its loop with bytes left to decode. *)
Lemma validate_guard (fuel : nat) (h : IUTF.handler) (text : utf_text.t) :
  IUTF.validate fuel h text =
  Some (match utf_text.buffer text with None => false | Some _ => true end
        && (utf_text.length text <=? utf_text.offset text)).
Proof.
  unfold IUTF.validate.
  destruct (utf_text.buffer text); simpl.
  - rewrite Z.leb_antisym.
    destruct (utf_text.offset text <? utf_text.length text) eqn:Hlt;
      simpl; [ reflexivity | ].
    destruct fuel; simpl; now rewrite Hlt.
  - reflexivity.
Qed.

End Cursor.

(** ** Concrete decodes and encodes *)

Example getUTF8_ascii :
  getUTF8 (Some [Byte.x41]) 1 false = (true, 0x41, 1).
Proof. reflexivity. Qed.

Example getUTF8_euro :
  getUTF8 (Some [Byte.xe2; Byte.x82; Byte.xac]) 3 false = (true, 0x20ac, 3).
Proof. reflexivity. Qed.

Example setUTF8_supplementary :
  setUTF8 (Some [Byte.x00; Byte.x00; Byte.x00; Byte.x00]) 4 0x10348 false
    = (true, Some [Byte.xf0; Byte.x90; Byte.x8d; Byte.x88], 4).
Proof. reflexivity. Qed.

Example getUTF16le_lone_high_surrogate :
  getUTF16le (Some [Byte.x00; Byte.xd8]) 2 = (false, 0x80000000, 2).
Proof. reflexivity. Qed.

Example getUTF32be_above_range :
  getUTF32be (Some [Byte.x00; Byte.x11; Byte.x00; Byte.x00]) 4
    = (false, 0x80000000, 4).
Proof. reflexivity. Qed.

(** * The properties *)

(** C1. Round trip: for every rune [r] and every encoding [E] that
    [getHandler] serves (the five primary ones; [OTHER] is the Java style
    UTF-8 handler, for which it holds as well), encoding [r] with [E]'s
    [set] into a buffer with room for four bytes succeeds, and decoding the
    written bytes with [E]'s [get] succeeds, gives [r] back and consumes
    exactly the byte count the encoder reported. *)
Theorem round_trip_primary (E : UTF_TYPE) (r : Z) (b : list byte) (size : Z) :
  is_rune r -> 4 <= size <= Z.of_nat (length b) ->
  round_trips (IUTF.set (getHandler E)) (IUTF.get (getHandler E)) r b size.
Proof.
  intros Hr Hsize. destruct E; simpl.
  - exact (utf8_round_trip false r b size Hr Hsize).
  - exact (utf16le_round_trip r b size Hr Hsize).
  - exact (utf16be_round_trip r b size Hr Hsize).
  - exact (utf32le_round_trip r b size Hr Hsize).
  - exact (utf32be_round_trip r b size Hr Hsize).
  - exact (utf8_round_trip true r b size Hr Hsize).
Qed.

Lemma round_trip_primary_witness :
  is_rune 0x10348 /\
  round_trips (IUTF.set (getHandler UTF16le)) (IUTF.get (getHandler UTF16le))
              0x10348 [Byte.x00; Byte.x00; Byte.x00; Byte.x00] 4.
Proof.
  assert (Hr : is_rune 0x10348) by (unfold is_rune; lia).
  split; [ exact Hr | ].
  apply (round_trip_primary UTF16le 0x10348); [ exact Hr | simpl; lia ].
Defined.

(** C2. At a cursor over the single byte 0x41 the decoder reads the whole
    content successfully, so the loop of [validate] run on it answers
    true; [validate] itself answers false, because its guard
    [text.offset < text.length] returns before the loop whenever a byte is
    left to decode. *)
Theorem validate_failing_input (fuel : nat) :
  IUTF.read CUTF8 (utf_text.mk 1 0 (Some [Byte.x41]))
    = (true, 0x41, utf_text.mk 1 1 (Some [Byte.x41])) /\
  IUTF.validate_loop (S fuel) CUTF8 (utf_text.mk 1 0 (Some [Byte.x41])) = Some true /\
  IUTF.validate fuel CUTF8 (utf_text.mk 1 0 (Some [Byte.x41])) = Some false.
Proof.
  split; [ reflexivity | ]. split.
  - destruct fuel; reflexivity.
  - now rewrite validate_guard.
Qed.

(** C3, as stated, fails: a read that fails on the byte 0xff still moves
    the offset, by one code unit. *)
Lemma read_failure_advances :
  IUTF.read CUTF8 (utf_text.mk 1 0 (Some [Byte.xff]))
    = (false, 0x800000ff, utf_text.mk 1 1 (Some [Byte.xff])) /\
  utf_text.offset (IUTF.read CUTF8 (utf_text.mk 1 0 (Some [Byte.xff]))).2
    <> utf_text.offset (utf_text.mk 1 0 (Some [Byte.xff])) + 0.
Proof. split; [ reflexivity | discriminate ]. Qed.

(** C3, amended. For every handler that [getHandler] hands out (either
    overload, whatever the code page 1252 tables are) and every cursor over
    bytes that are there, [read] and [write] move the offset by exactly the
    byte count that [get] or [set] reports, without wrapping.  On success
    that is the number of bytes consumed or produced, at least one and
    within the remaining bytes.  A failed [write] moves nothing and leaves
    the text as it was.  A failed [read] moves the offset by one code unit
    (1, 2 or 4 bytes), and by zero only when less than one code unit
    remains.  For [write] the count is the one that [IUTF::set] on the
    cursor reports, which, the offset being inside the length, is the one
    the encoder reports on the remaining bytes; the text that [write]
    leaves is the text that [set] wrote, moved by that count. *)
Theorem read_write_advance (cp1252ToUnicode unicodeToCP1252 : Z -> option Z)
    (h : IUTF.handler) (text : utf_text.t) :
  served cp1252ToUnicode unicodeToCP1252 h ->
  cursor_ok text ->
  (forall ok u text',
     IUTF.read h text = (ok, u, text') ->
     exists n,
       IUTF.get_text h text = (ok, u, n) /\
       text' = utf_text.mk (utf_text.length text) (utf_text.offset text + n)
                           (utf_text.buffer text) /\
       (ok = true -> 1 <= n <= remaining text) /\
       (ok = false ->
        n = if IUTF.unitSize h <=? remaining text then IUTF.unitSize h else 0)) /\
  (forall v ok text',
     IUTF.write h text v = (ok, text') ->
     exists n written,
       IUTF.set_text h text v = (ok, written, n) /\
       text' = utf_text.mk (utf_text.length text) (utf_text.offset text + n)
                           (utf_text.buffer written) /\
       utf_text.length text' = utf_text.length text /\
       utf_text.offset text' = utf_text.offset text + n /\
       (ok = true -> 1 <= n <= remaining text) /\
       (ok = false -> n = 0 /\ text' = text) /\
       (utf_text.offset text <= utf_text.length text ->
        exists sub,
          IUTF.set h (ptr_at (utf_text.buffer text) (utf_text.offset text))
                     (remaining text) v = (ok, sub, n) /\
          utf_text.buffer written
          = ptr_merge (utf_text.buffer text) (utf_text.offset text) sub)).
Proof.
  intros Hh Hok.
  assert (Hrem : 0 <= remaining text /\
                 utf_text.offset text + remaining text < 2 ^ 32 /\
                 0 <= utf_text.offset text < 2 ^ 32).
  { destruct Hok as (b & _ & Ho & Hl & _). unfold remaining.
    destruct (Z.leb_spec (utf_text.offset text) (utf_text.length text)); lia. }
  split.
  - intros ok u text' Hread. unfold IUTF.read in Hread.
    destruct (IUTF.get_text h text) as [[ok0 u0] n] eqn:Hget.
    injection Hread as <- <- <-. exists n.
    destruct (get_text_reported _ _ h text ok0 u0 n Hh Hok Hget) as [Hs Hf].
    split; [ reflexivity | ]. split; [ | split; assumption ].
    unfold IUTF.advance, add32. rewrite wrap32_small; [ reflexivity | ].
    destruct ok0.
    + specialize (Hs eq_refl). lia.
    + specialize (Hf eq_refl). revert Hf.
      destruct Hh as [[E ->] | [O ->]]; [ destruct E | destruct O ];
        simpl; goal_ifs; bools; lia.
  - intros v ok text' Hwrite. unfold IUTF.write in Hwrite.
    destruct (IUTF.set_text h text v) as [[ok0 t] n] eqn:Hset.
    injection Hwrite as <- <-. exists n, t.
    destruct (set_text_reported _ _ h text v ok0 t n Hh Hok Hset)
      as (Hl & Ho & Hs & Hf).
    assert (Hn : 0 <= n <= remaining text).
    { destruct ok0; [ specialize (Hs eq_refl) | destruct (Hf eq_refl) ]; lia. }
    assert (Hadv : IUTF.advance t n
                   = utf_text.mk (utf_text.length text)
                       (utf_text.offset text + n) (utf_text.buffer t)).
    { unfold IUTF.advance, add32. now rewrite Hl, Ho, wrap32_small by lia. }
    rewrite Hadv. cbn [utf_text.length utf_text.offset utf_text.buffer].
    split; [ reflexivity | ]. split; [ reflexivity | ].
    split; [ reflexivity | ]. split; [ reflexivity | ].
    split; [ exact Hs | ]. split.
    + intros Hfalse. destruct (Hf Hfalse) as [-> ->].
      split; [ reflexivity | ].
      rewrite Z.add_0_r. now destruct text.
    + intros Hle. unfold IUTF.set_text in Hset.
      destruct Hok as (b & _ & Hoff & Hlen & _).
      rewrite (proj2 (Z.leb_le _ _) Hle) in Hset.
      rewrite sub32_remaining in Hset
        by (try apply Z.leb_le; lia).
      destruct (IUTF.set h _ _ v) as [[ok1 sub] n1] eqn:Hprim.
      injection Hset as <- <- <-. exists sub. split; reflexivity.
Qed.

Lemma read_write_advance_witness :
  served (fun _ => None) (fun _ => None) CUTF8 /\
  cursor_ok (utf_text.mk 2 0 (Some [Byte.xff; Byte.x41])) /\
  exists n,
    IUTF.get_text CUTF8 (utf_text.mk 2 0 (Some [Byte.xff; Byte.x41]))
      = (false, 0x800000ff, n) /\
    n = 1.
Proof.
  assert (Hh : served (fun _ => None) (fun _ => None) CUTF8)
    by (left; exists UTF8; reflexivity).
  assert (Hok : cursor_ok (utf_text.mk 2 0 (Some [Byte.xff; Byte.x41]))).
  { exists [Byte.xff; Byte.x41]. simpl. repeat split; lia. }
  split; [ exact Hh | ]. split; [ exact Hok | ].
  destruct (proj1 (read_write_advance _ _ CUTF8 _ Hh Hok) false 0x800000ff
              (utf_text.mk 2 1 (Some [Byte.xff; Byte.x41])) eq_refl)
    as (n & Hget & _ & _ & Hf).
  exists n. split; [ exact Hget | exact (Hf eq_refl) ].
Defined.

(** C4, as stated, fails: E2 announces three bytes, and with only two
    available the decoder reports one byte, not three. *)
Lemma truncated_utf8_not_declared_width :
  2 < utf8_width (ld [Byte.xe2; Byte.x82] 0) /\
  getUTF8 (Some [Byte.xe2; Byte.x82]) 2 false = (false, 0x800000e2, 1) /\
  (getUTF8 (Some [Byte.xe2; Byte.x82]) 2 false).2
    <> utf8_width (ld [Byte.xe2; Byte.x82] 0).
Proof. repeat split; discriminate. Qed.

(** C4, amended. When [size] is at least one but smaller than the width
    that the lead byte announces, [getUTF8] fails with the sentinel
    [0x80000000 | lead] and reports one byte, the code-unit size, as the
    header of utf_std.cpp documents; and it reports zero bytes exactly when
    the buffer is null or [size] is zero. *)
Theorem truncated_utf8_reports_unit (b : list byte) (size : Z) (use_java : bool) :
  1 <= size < utf8_width (ld b 0) ->
  getUTF8 (Some b) size use_java = (false, Z.lor (ld b 0) 0x80000000, 1) /\
  (forall buffer' size',
     (getUTF8 buffer' size' use_java).2 = 0 <-> buffer' = None \/ size' < 1).
Proof.
  intros Hsize. split.
  - pose proof (ld_range b 0) as Hb. revert Hsize.
    unfold utf8_width, getUTF8. cbv zeta. rewrite lo8_mod.
    goal_ifs; bools; intros; try reflexivity; exfalso; div_lia.
  - intros buffer' size'. unfold getUTF8.
    destruct buffer' as [b' | ]; [ | simpl; tauto ].
    cbv zeta. goal_ifs; bools; simpl; split;
      try discriminate; try lia; intros [Hn | Hz]; try discriminate; lia.
Qed.

Lemma truncated_utf8_reports_unit_witness :
  1 <= 2 < utf8_width (ld [Byte.xe2; Byte.x82] 0) /\
  getUTF8 (Some [Byte.xe2; Byte.x82]) 2 false
    = (false, Z.lor (ld [Byte.xe2; Byte.x82] 0) 0x80000000, 1).
Proof.
  assert (H : 1 <= 2 < utf8_width (ld [Byte.xe2; Byte.x82] 0))
    by (vm_compute; split; [ discriminate | reflexivity ]).
  split; [ exact H | ].
  exact (proj1 (truncated_utf8_reports_unit [Byte.xe2; Byte.x82] 2 false H)).
Defined.

(** C5. The two bytes C0 80, with at least two bytes available: without
    the Java flag the decode fails with the sentinel 0x800000C0 (and
    reports one byte); with the flag it succeeds with scalar 0 and two
    bytes. *)
Theorem overlong_null (rest : list byte) (size : Z) :
  2 <= size ->
  getUTF8 (Some (Byte.xc0 :: Byte.x80 :: rest)) size false = (false, 0x800000c0, 1) /\
  getUTF8 (Some (Byte.xc0 :: Byte.x80 :: rest)) size true = (true, 0x0, 2).
Proof.
  intros Hsize. unfold getUTF8.
  rewrite !(proj2 (Z.leb_le 1 size)), !(proj2 (Z.leb_le 2 size)) by lia.
  split; reflexivity.
Qed.

Lemma overlong_null_witness :
  2 <= 2 /\
  getUTF8 (Some [Byte.xc0; Byte.x80]) 2 false = (false, 0x800000c0, 1) /\
  getUTF8 (Some [Byte.xc0; Byte.x80]) 2 true = (true, 0x0, 2).
Proof.
  assert (H : 2 <= 2) by lia.
  split; [ exact H | exact (overlong_null [] 2 H) ].
Defined.

(** C6. Under UTF-16LE, with at least four bytes available: 00 D8 00 DC
    decodes to 0x10000 with four bytes consumed; any high surrogate unit
    followed by a low surrogate unit decodes to
    [((high & 0x3FF) << 10) + (low & 0x3FF) + 0x10000]; and encoding
    0x10000 writes exactly 00 D8 00 DC over the first four bytes and
    reports four bytes. *)
Theorem surrogate_pair_utf16le (size : Z) (rest : list byte) :
  4 <= size ->
  getUTF16le (Some (Byte.x00 :: Byte.xd8 :: Byte.x00 :: Byte.xdc :: rest)) size
    = (true, 0x10000, 4) /\
  (forall c0 c1 c2 c3 : byte,
     let high := byte.unsigned c1 * 256 + byte.unsigned c0 in
     let low := byte.unsigned c3 * 256 + byte.unsigned c2 in
     0xd800 <= high <= 0xdbff -> 0xdc00 <= low <= 0xdfff ->
     getUTF16le (Some (c0 :: c1 :: c2 :: c3 :: rest)) size
       = (true, Z.shiftl (Z.land high 0x3ff) 10 + Z.land low 0x3ff + 0x10000, 4)) /\
  (forall b0 b1 b2 b3 : byte,
     setUTF16le (Some (b0 :: b1 :: b2 :: b3 :: rest)) size 0x10000
       = (true, Some (Byte.x00 :: Byte.xd8 :: Byte.x00 :: Byte.xdc :: rest), 4)).
Proof.
  intros Hsize. split; [ | split ].
  - unfold getUTF16le.
    rewrite (proj2 (Z.leb_le 2 size)), (proj2 (Z.leb_le 4 size)) by lia.
    reflexivity.
  - intros c0 c1 c2 c3 high low Hhigh Hlow.
    pose proof (byte.unsigned_range c0). pose proof (byte.unsigned_range c1).
    pose proof (byte.unsigned_range c2). pose proof (byte.unsigned_range c3).
    unfold getUTF16le.
    rewrite (proj2 (Z.leb_le 2 size)), (proj2 (Z.leb_le 4 size)) by lia.
    change (ld (c0 :: c1 :: c2 :: c3 :: rest) 0) with (byte.unsigned c0).
    change (ld (c0 :: c1 :: c2 :: c3 :: rest) 1) with (byte.unsigned c1).
    change (ld (c0 :: c1 :: c2 :: c3 :: rest) 2) with (byte.unsigned c2).
    change (ld (c0 :: c1 :: c2 :: c3 :: rest) 3) with (byte.unsigned c3).
    assert (Hv : add32 (shl32 (byte.unsigned c1) 8) (byte.unsigned c0) = high)
      by (subst high; word_arith).
    assert (He : add32 (shl32 (byte.unsigned c3) 8) (byte.unsigned c2) = low)
      by (subst low; word_arith).
    cbv zeta. rewrite Hv, He.
    rewrite is_surrogate_test, !land_fc00, !land_3ff by lia.
    goal_ifs; bools; try (exfalso; div_lia).
    f_equal. f_equal. word_arith.
  - intros b0 b1 b2 b3. unfold setUTF16le.
    rewrite (proj2 (Z.leb_le 2 size)), (proj2 (Z.leb_le 4 size)) by lia.
    reflexivity.
Qed.

Lemma surrogate_pair_utf16le_witness :
  4 <= 4 /\
  getUTF16le (Some [Byte.x00; Byte.xd8; Byte.x00; Byte.xdc]) 4 = (true, 0x10000, 4).
Proof.
  assert (H : 4 <= 4) by lia.
  split; [ exact H | exact (proj1 (surrogate_pair_utf16le 4 [] H)) ].
Defined.

(** C7. No scalar of the surrogate range 0xD800-0xDFFF is encodable in
    UTF-16: for every buffer and capacity, [setUTF16le] and [setUTF16be]
    return false with [bytes == 0] and write nothing; in particular
    [setUTF16le(buf, 2, 0xD800)] does. *)
Theorem surrogates_not_encodable (v : Z) (buffer : ptr) (size : Z) :
  0xd800 <= v <= 0xdfff ->
  setUTF16le buffer size v = (false, buffer, 0) /\
  setUTF16be buffer size v = (false, buffer, 0).
Proof.
  intros Hv. unfold setUTF16le, setUTF16be.
  destruct buffer as [b | ]; [ | split; reflexivity ].
  rewrite is_surrogate_test by lia.
  rewrite (proj2 (Z.leb_le 0xd800 v)), (proj2 (Z.leb_le v 0xdfff)) by lia.
  rewrite !andb_false_r. split; reflexivity.
Qed.

Lemma surrogates_not_encodable_witness :
  0xd800 <= 0xd800 <= 0xdfff /\
  setUTF16le (Some [Byte.x00; Byte.x00]) 2 0xd800
    = (false, Some [Byte.x00; Byte.x00], 0).
Proof.
  assert (H : 0xd800 <= 0xd800 <= 0xdfff) by lia.
  split; [ exact H | ].
  exact (proj1 (surrogates_not_encodable 0xd800 (Some [Byte.x00; Byte.x00]) 2 H)).
Defined.

(** C8, as stated, fails: after the line "a", the scan over the remaining
    byte "b" finds neither a newline nor a terminator before the cursor
    ends, so it reports failure and the null view, and no line "b". *)
Lemma line_scan_last_line_lost :
  IUTF.readLine 4 CUTF8
      (utf_text.mk 4 0 (Some [Byte.x61; Byte.x0d; Byte.x0a; Byte.x62]))
    = Some (true,
            utf_text.mk 1 0 (Some [Byte.x61; Byte.x0d; Byte.x0a; Byte.x62]),
            utf_text.mk 4 3 (Some [Byte.x61; Byte.x0d; Byte.x0a; Byte.x62])) /\
  IUTF.readLine 4 CUTF8
      (utf_text.mk 4 3 (Some [Byte.x61; Byte.x0d; Byte.x0a; Byte.x62]))
    = Some (false, IUTF.no_line,
            utf_text.mk 4 3 (Some [Byte.x61; Byte.x0d; Byte.x0a; Byte.x62])).
Proof. split; reflexivity. Qed.

(** C8, amended. Over the UTF-8 bytes "a\r\nb": [getNLF] at the carriage
    return reports one line-feed signal of width 2, the CR+LF pair being
    collapsed because 0x0D equals 0x0A xor 0x7; [getLine] and [readLine]
    yield a line view over exactly "a" and consume 3 bytes, the line and
    its boundary.  The next [readLine], over "b" alone, yields no line.
    When a terminator follows "b" inside the cursor ("a\r\nb\0"), the next
    [readLine] yields a line view over exactly "b".  One unit of fuel is
    enough for each call. *)
Theorem line_scan_crlf (fuel : nat) :
  IUTF.getNLF CUTF8 (utf_text.mk 4 1 (Some [Byte.x61; Byte.x0d; Byte.x0a; Byte.x62]))
    = (true, 0x0a, 2) /\
  IUTF.getLine (S fuel) CUTF8
      (utf_text.mk 4 0 (Some [Byte.x61; Byte.x0d; Byte.x0a; Byte.x62]))
    = Some (true,
            utf_text.mk 1 0 (Some [Byte.x61; Byte.x0d; Byte.x0a; Byte.x62]), 3) /\
  IUTF.readLine (S fuel) CUTF8
      (utf_text.mk 4 0 (Some [Byte.x61; Byte.x0d; Byte.x0a; Byte.x62]))
    = Some (true,
            utf_text.mk 1 0 (Some [Byte.x61; Byte.x0d; Byte.x0a; Byte.x62]),
            utf_text.mk 4 3 (Some [Byte.x61; Byte.x0d; Byte.x0a; Byte.x62])) /\
  view_bytes (utf_text.mk 1 0 (Some [Byte.x61; Byte.x0d; Byte.x0a; Byte.x62]))
    = [Byte.x61] /\
  IUTF.readLine (S fuel) CUTF8
      (utf_text.mk 4 3 (Some [Byte.x61; Byte.x0d; Byte.x0a; Byte.x62]))
    = Some (false, IUTF.no_line,
            utf_text.mk 4 3 (Some [Byte.x61; Byte.x0d; Byte.x0a; Byte.x62])) /\
  IUTF.readLine (S fuel) CUTF8
      (utf_text.mk 5 3 (Some [Byte.x61; Byte.x0d; Byte.x0a; Byte.x62; Byte.x00]))
    = Some (true,
            utf_text.mk 1 0 (Some [Byte.x62; Byte.x00]),
            utf_text.mk 5 5 (Some [Byte.x61; Byte.x0d; Byte.x0a; Byte.x62; Byte.x00])) /\
  view_bytes (utf_text.mk 1 0 (Some [Byte.x62; Byte.x00])) = [Byte.x62].
Proof.
  repeat split; try reflexivity.
  all: unfold IUTF.readLine, IUTF.getLine; simpl; destruct fuel; reflexivity.
Qed.

(** C9. [identifyUTF] looks for the four-byte UTF-32 marks first, then for
    the three-byte UTF-8 mark, then for the two-byte UTF-16 marks: every
    buffer of at least three bytes that begins EF BB BF is UTF8 with
    [bytes == 3]; every buffer of at least four bytes that begins
    FF FE 00 00 is UTF32le with [bytes == 4], although FF FE is the
    UTF-16LE mark, which is what the same bytes give when fewer than four
    are available. *)
Theorem bom_priority (rest : list byte) (size : Z) :
  3 <= size ->
  identifyUTF (Some (Byte.xef :: Byte.xbb :: Byte.xbf :: rest)) size = (UTF8, 3) /\
  (4 <= size ->
   identifyUTF (Some (Byte.xff :: Byte.xfe :: Byte.x00 :: Byte.x00 :: rest)) size
     = (UTF32le, 4)) /\
  (size < 4 ->
   identifyUTF (Some (Byte.xff :: Byte.xfe :: Byte.x00 :: Byte.x00 :: rest)) size
     = (UTF16le, 2)).
Proof.
  intros Hsize. unfold identifyUTF, identify_bom.
  rewrite !(proj2 (Z.leb_le 2 size)), !(proj2 (Z.leb_le 3 size)) by lia.
  split; [ | split ].
  - destruct (4 <=? size); reflexivity.
  - intros H4. rewrite (proj2 (Z.leb_le 4 size)) by lia. reflexivity.
  - intros H4. rewrite (proj2 (Z.leb_gt 4 size)) by lia. reflexivity.
Qed.

Lemma bom_priority_witness :
  3 <= 4 /\
  identifyUTF (Some [Byte.xef; Byte.xbb; Byte.xbf; Byte.x41]) 4 = (UTF8, 3) /\
  identifyUTF (Some [Byte.xff; Byte.xfe; Byte.x00; Byte.x00]) 4 = (UTF32le, 4).
Proof.
  assert (H : 3 <= 4) by lia.
  split; [ exact H | ]. split.
  - exact (proj1 (bom_priority [Byte.x41] 4 H)).
  - apply (proj1 (proj2 (bom_priority [] 4 H))). lia.
Defined.

(** C10. Whenever a strict decoder ([getUTF8] with either value of
    [use_java], [getUTF16le], [getUTF16be], [getUTF32le], [getUTF32be])
    returns true, for any buffer and size, the value it gives is a Unicode
    scalar value: within 0 .. 0x10FFFF and no surrogate. *)
Theorem strict_decode_is_rune (buffer : ptr) (size : Z) (use_java : bool) (u n : Z) :
  getUTF8 buffer size use_java = (true, u, n) \/
  getUTF16le buffer size = (true, u, n) \/
  getUTF16be buffer size = (true, u, n) \/
  getUTF32le buffer size = (true, u, n) \/
  getUTF32be buffer size = (true, u, n) ->
  is_rune u.
Proof.
  intros [H | [H | [H | [H | H]]]].
  - exact (getUTF8_rune _ _ _ _ _ H).
  - exact (getUTF16le_rune _ _ _ _ H).
  - exact (getUTF16be_rune _ _ _ _ H).
  - exact (getUTF32le_rune _ _ _ _ H).
  - exact (getUTF32be_rune _ _ _ _ H).
Qed.

Lemma strict_decode_is_rune_witness :
  getUTF8 (Some [Byte.xe2; Byte.x82; Byte.xac]) 3 false = (true, 0x20ac, 3) /\
  is_rune 0x20ac.
Proof.
  assert (H : getUTF8 (Some [Byte.xe2; Byte.x82; Byte.xac]) 3 false = (true, 0x20ac, 3))
    by reflexivity.
  split; [ exact H | ].
  exact (strict_decode_is_rune (Some [Byte.xe2; Byte.x82; Byte.xac]) 3 false
           0x20ac 3 (or_introl H)).
Defined.

(** * Further properties *)

(** ** Automation *)

Ltac handler_cases :=
  unfold getHandler, getHandlerOther, CUTF8, CJUTF8, CUTF16le, CUTF16be,
    CUTF32le, CUTF32be, CBYTE, CASCII, CCP1252;
  cbn [IUTF.get IUTF.set IUTF.unitSize].

Lemma add32_eq (x y : Z) : add32 x y = (x + y) mod 2 ^ 32.
Proof. reflexivity. Qed.

Lemma sub32_eq (x y : Z) : sub32 x y = (x - y) mod 2 ^ 32.
Proof. reflexivity. Qed.

Lemma shl32_eq (x k : Z) : 0 <= k -> shl32 x k = (x * 2 ^ k) mod 2 ^ 32.
Proof. intros Hk. unfold shl32, wrap32. now rewrite Z.shiftl_mul_pow2. Qed.

Lemma wrap32_eq (z : Z) : wrap32 z = z mod 2 ^ 32.
Proof. reflexivity. Qed.

Lemma mod32_range (z : Z) : 0 <= z mod 2 ^ 32 < 2 ^ 32.
Proof. apply Z.mod_pos_bound. lia. Qed.

(** Word operations and masks rewritten into quotients and remainders,
    everywhere. *)
Ltac words :=
  rewrite ?add32_eq, ?sub32_eq, ?wrap32_eq in *;
  rewrite ?shl32_eq in * by lia;
  rewrite ?land_3f, ?land_1f, ?land_0f, ?land_07, ?land_3ff, ?lo8_mod in *;
  rewrite ?land_f800, ?land_fc00 in * by apply mod32_range.

Ltac word_lia := words; Z.div_mod_to_equations; lia.

(** Decides the [<=?] tests of the goal that the context settles. *)
Ltac decide_tests :=
  repeat match goal with
    | |- context [?x <=? ?y] =>
        first [ rewrite (proj2 (Z.leb_le x y)) by lia
              | rewrite (proj2 (Z.leb_gt x y)) by lia ]
    end;
  cbn [andb orb negb].

(** Loads from a buffer given by its first bytes. *)
Lemma ld_cons_0 (c : byte) (l : list byte) : ld (c :: l) 0 = byte.unsigned c.
Proof. reflexivity. Qed.

Lemma ld_cons_S (c : byte) (l : list byte) (i : nat) :
  ld (c :: l) (S i) = ld l i.
Proof. reflexivity. Qed.

(** ** The encoders *)

Section Encoders.

Ltac encoder_cases :=
  cbv zeta; rewrite ?is_surrogate_test by lia;
  goal_ifs; bools; eexists _, _, _; (split; [ reflexivity | ]);
  unfold is_rune, units_needed; goal_ifs; bools;
  (split; [ split; [ try discriminate; intros; lia | intros [[? ?] ?]; try reflexivity; exfalso; lia ] | ]);
  (split; intros; try discriminate; try reflexivity; try lia; try (split; reflexivity)).

(** X1. What an encoder of [getHandler] does with a 32-bit value: it
    succeeds exactly when the value is a rune and the capacity [size] is
    at least the number of bytes of its encoded form, and then reports
    that number; when it fails it reports 0 bytes and leaves the buffer as
    it was. *)
Theorem encoder_outcome (E : UTF_TYPE) (b : list byte) (size v : Z) :
  0 <= v < 2 ^ 32 ->
  exists ok p n,
    IUTF.set (getHandler E) (Some b) size v = (ok, p, n) /\
    (ok = true <-> is_rune v /\ units_needed E v <= size) /\
    (ok = true -> n = units_needed E v) /\
    (ok = false -> n = 0 /\ p = Some b).
Proof.
  intros Hv. destruct E; simpl.
  - unfold setUTF8. encoder_cases.
  - unfold setUTF16le. encoder_cases.
  - unfold setUTF16be. encoder_cases.
  - unfold setUTF32le. encoder_cases.
  - unfold setUTF32be. encoder_cases.
  - unfold setUTF8. encoder_cases.
Qed.

End Encoders.

Lemma encoder_outcome_witness :
  0 <= 0x20ac < 2 ^ 32 /\
  exists ok p n,
    IUTF.set (getHandler UTF8) (Some [Byte.x00; Byte.x00; Byte.x00]) 3 0x20ac
      = (ok, p, n) /\
    (ok = true <-> is_rune 0x20ac /\ units_needed UTF8 0x20ac <= 3) /\
    (ok = true -> n = units_needed UTF8 0x20ac) /\
    (ok = false -> n = 0 /\ p = Some [Byte.x00; Byte.x00; Byte.x00]).
Proof.
  assert (H : 0 <= 0x20ac < 2 ^ 32) by lia.
  split; [ exact H | ].
  exact (encoder_outcome UTF8 [Byte.x00; Byte.x00; Byte.x00] 3 0x20ac H).
Defined.


Section Frame.

Variable cp1252ToUnicode : Z -> option Z.
Variable unicodeToCP1252 : Z -> option Z.

Ltac frame H :=
  cbv zeta in H; split_ifs;
  repeat match type of H with
    | context [match ?t with Some _ => _ | None => _ end] => destruct t
    end;
  injection H as <- <- <-;
  eexists; (split; [ reflexivity | ]);
  (split; [ now rewrite ?length_st | ]);
  intros i Hi; unfold st; rewrite ?list_lookup_insert_ne by lia; reflexivity.

(** X2. An encoder writes inside the bytes it reports and nowhere else:
    the buffer keeps its length, and every byte at an index from [bytes]
    on is the byte that was there. *)
Theorem encoder_frame (h : IUTF.handler) (b : list byte) (size v : Z)
    (ok : bool) (p : ptr) (n : Z) :
  served cp1252ToUnicode unicodeToCP1252 h ->
  IUTF.set h (Some b) size v = (ok, p, n) ->
  exists b',
    p = Some b' /\ length b' = length b /\
    forall i : nat, n <= Z.of_nat i -> b' !! i = b !! i.
Proof.
  intros [[E ->] | [O ->]]; [ destruct E | destruct O ]; simpl; intros H.
  - unfold setUTF8 in H. frame H.
  - unfold setUTF16le in H. frame H.
  - unfold setUTF16be in H. frame H.
  - unfold setUTF32le in H. frame H.
  - unfold setUTF32be in H. frame H.
  - unfold setUTF8 in H. frame H.
  - unfold setUTF8 in H. frame H.
  - unfold setBYTE in H. frame H.
  - unfold setBYTE in H. frame H.
  - unfold setCP1252 in H. frame H.
Qed.

End Frame.

Lemma encoder_frame_witness :
  served (fun _ => None) (fun _ => None) CUTF8 /\
  IUTF.set CUTF8 (Some [Byte.x41; Byte.x42; Byte.x43]) 3 0xe9
    = (true, Some [Byte.xc3; Byte.xa9; Byte.x43], 2) /\
  exists b',
    Some [Byte.xc3; Byte.xa9; Byte.x43] = Some b' /\
    length b' = length [Byte.x41; Byte.x42; Byte.x43] /\
    forall i : nat, 2 <= Z.of_nat i -> b' !! i = [Byte.x41; Byte.x42; Byte.x43] !! i.
Proof.
  assert (Hh : served (fun _ => None) (fun _ => None) CUTF8)
    by (left; exists UTF8; reflexivity).
  assert (Hset : IUTF.set CUTF8 (Some [Byte.x41; Byte.x42; Byte.x43]) 3 0xe9
                 = (true, Some [Byte.xc3; Byte.xa9; Byte.x43], 2))
    by (vm_compute; reflexivity).
  split; [ exact Hh | ]. split; [ exact Hset | ].
  exact (encoder_frame _ _ CUTF8 _ _ _ _ _ _ Hh Hset).
Defined.


(** ** The decoders *)

Section ReadsWithinSize.

Variable cp1252ToUnicode : Z -> option Z.
Variable unicodeToCP1252 : Z -> option Z.

(** Buffers that agree on their first [size] bytes give the same loads
    below [size]. *)
Lemma ld_take (b1 b2 : list byte) (size : Z) (i : nat) :
  take (Z.to_nat size) b1 = take (Z.to_nat size) b2 ->
  Z.of_nat i < size -> ld b1 i = ld b2 i.
Proof.
  intros Heq Hi. unfold ld.
  rewrite <- (lookup_take_lt b1 (Z.to_nat size) i) by lia.
  rewrite <- (lookup_take_lt b2 (Z.to_nat size) i) by lia.
  now rewrite Heq.
Qed.

Lemma ld_char_take (b1 b2 : list byte) (size : Z) (i : nat) :
  take (Z.to_nat size) b1 = take (Z.to_nat size) b2 ->
  Z.of_nat i < size -> ld_char b1 i = ld_char b2 i.
Proof. intros Heq Hi. unfold ld_char. now rewrite (ld_take b1 b2 size i). Qed.

Ltac within_size b1 b2 size Heq :=
  repeat match goal with
    | |- context [?k <=? size] =>
        first [ rewrite (proj2 (Z.leb_le k size)) by lia
              | rewrite (proj2 (Z.leb_gt k size)) by lia
              | destruct (Z.leb_spec k size) ]
    end;
  repeat match goal with
    | |- context [ld b1 ?i] =>
        rewrite (ld_take b1 b2 size i Heq) by lia
    | |- context [ld_char b1 ?i] =>
        rewrite (ld_char_take b1 b2 size i Heq) by lia
    end;
  reflexivity.

(** X3. A decoder reads no byte at an index from [size] on: on two
    buffers that agree on their first [size] bytes it gives the same
    result. *)
Theorem decoder_reads_within_size (h : IUTF.handler) (b1 b2 : list byte) (size : Z) :
  served cp1252ToUnicode unicodeToCP1252 h ->
  take (Z.to_nat size) b1 = take (Z.to_nat size) b2 ->
  IUTF.get h (Some b1) size = IUTF.get h (Some b2) size.
Proof.
  intros [[E ->] | [O ->]] Heq; [ destruct E | destruct O ]; handler_cases.
  - unfold getUTF8. within_size b1 b2 size Heq.
  - unfold getUTF16le. within_size b1 b2 size Heq.
  - unfold getUTF16be. within_size b1 b2 size Heq.
  - unfold getUTF32le. within_size b1 b2 size Heq.
  - unfold getUTF32be. within_size b1 b2 size Heq.
  - unfold getUTF8. within_size b1 b2 size Heq.
  - unfold getUTF8. within_size b1 b2 size Heq.
  - unfold getBYTE. within_size b1 b2 size Heq.
  - unfold getBYTE. within_size b1 b2 size Heq.
  - unfold getCP1252. within_size b1 b2 size Heq.
Qed.

(** X4. [identifyUTF] reads no byte at an index from [size] on. *)
Theorem identifyUTF_reads_within_size (b1 b2 : list byte) (size : Z) :
  take (Z.to_nat size) b1 = take (Z.to_nat size) b2 ->
  identifyUTF (Some b1) size = identifyUTF (Some b2) size.
Proof.
  intros Heq. unfold identifyUTF, identify_bom, identify_ascii. cbv zeta.
  within_size b1 b2 size Heq.
Qed.

End ReadsWithinSize.

Lemma decoder_reads_within_size_witness :
  served (fun _ => None) (fun _ => None) CUTF16le /\
  IUTF.get CUTF16le (Some [Byte.x00; Byte.xd8; Byte.x00]) 2
    = IUTF.get CUTF16le (Some [Byte.x00; Byte.xd8; Byte.x00; Byte.xdc]) 2.
Proof.
  assert (Hh : served (fun _ => None) (fun _ => None) CUTF16le)
    by (left; exists UTF16le; reflexivity).
  split; [ exact Hh | ].
  apply (decoder_reads_within_size _ _ CUTF16le _ _ 2 Hh). reflexivity.
Defined.

Lemma identifyUTF_reads_within_size_witness :
  identifyUTF (Some [Byte.xff; Byte.xfe; Byte.x00]) 3
    = identifyUTF (Some [Byte.xff; Byte.xfe; Byte.x00; Byte.x00]) 3.
Proof.
  apply (identifyUTF_reads_within_size _ _ 3). reflexivity.
Defined.


Section Sentinels.

Variable cp1252ToUnicode : Z -> option Z.
Variable unicodeToCP1252 : Z -> option Z.

Ltac sentinel H :=
  cbv zeta in H;
  match type of H with
  | match ?buffer with _ => _ end = _ =>
      let b := fresh "b" in
      destruct buffer as [b | ];
      [ pose proof (ld_range b 0)
      | injection H as <- <-; left; repeat split; left; reflexivity ]
  end;
  split_ifs;
  repeat match type of H with
    | context [match ?t with Some _ => _ | None => _ end] => destruct t
    end;
  try discriminate; injection H as <- <-; bools;
  [ right; (split; [ reflexivity | ]); (split; [ lia | ]);
    eexists; (split; [ reflexivity | ]);
    rewrite ?lor_sentinel by lia; unfold add32; rewrite ?wrap32_small by lia;
    simpl; lia ..
  | left; repeat split; right; lia ].

(** X5. What a failed decode reports: 0 bytes and the value 0 exactly
    when the buffer is null or holds less than one code unit; otherwise
    one code unit as the byte count and the value 0x80000000, to which the
    one-byte forms add the offending byte. *)
Theorem decoder_failure_report (h : IUTF.handler) (buffer : ptr) (size u n : Z) :
  served cp1252ToUnicode unicodeToCP1252 h ->
  IUTF.get h buffer size = (false, u, n) ->
  (n = 0 /\ u = 0 /\ (buffer = None \/ size < IUTF.unitSize h)) \/
  (n = IUTF.unitSize h /\ IUTF.unitSize h <= size /\
   exists b, buffer = Some b /\
             u = 0x80000000 + (if IUTF.unitSize h =? 1 then ld b 0 else 0)).
Proof.
  intros [[E ->] | [O ->]]; [ destruct E | destruct O ]; handler_cases; intros H.
  - unfold getUTF8 in H. sentinel H.
  - unfold getUTF16le in H. sentinel H.
  - unfold getUTF16be in H. sentinel H.
  - unfold getUTF32le in H. sentinel H.
  - unfold getUTF32be in H. sentinel H.
  - unfold getUTF8 in H. sentinel H.
  - unfold getUTF8 in H. sentinel H.
  - unfold getBYTE in H. sentinel H.
  - unfold getBYTE in H. sentinel H.
  - unfold getCP1252 in H. sentinel H.
Qed.

End Sentinels.

Lemma decoder_failure_report_witness :
  served (fun _ => None) (fun _ => None) CUTF8 /\
  IUTF.get CUTF8 (Some [Byte.xff]) 1 = (false, 0x800000ff, 1) /\
  ((1 = 0 /\ 0x800000ff = 0
    /\ (Some [Byte.xff] = None \/ 1 < IUTF.unitSize CUTF8)) \/
   (1 = IUTF.unitSize CUTF8 /\ IUTF.unitSize CUTF8 <= 1 /\
    exists b, Some [Byte.xff] = Some b /\
              0x800000ff
              = 0x80000000 + (if IUTF.unitSize CUTF8 =? 1 then ld b 0 else 0))).
Proof.
  assert (Hh : served (fun _ => None) (fun _ => None) CUTF8)
    by (left; exists UTF8; reflexivity).
  assert (Hget : IUTF.get CUTF8 (Some [Byte.xff]) 1 = (false, 0x800000ff, 1))
    by (vm_compute; reflexivity).
  split; [ exact Hh | ]. split; [ exact Hget | ].
  exact (decoder_failure_report _ _ CUTF8 _ _ _ _ Hh Hget).
Defined.


(** ** Decoding, then encoding *)

Section Canonical.

(** Storing at an index the byte that is already there changes nothing. *)
Lemma st_same (b : list byte) (i : nat) (z : Z) :
  z mod 256 = ld b i -> st b i z = b.
Proof.
  unfold st, ld. intros Hz.
  destruct (b !! i) as [x | ] eqn:Hx; simpl in Hz.
  - apply list_insert_id. rewrite Hx. f_equal.
    apply byte.unsigned_inj. now rewrite byte.unsigned_of_Z.
  - apply list_insert_ge. now apply lookup_ge_None.
Qed.

Ltac decoded H b :=
  pose proof (ld_range b 0); pose proof (ld_range b 1);
  pose proof (ld_range b 2); pose proof (ld_range b 3);
  cbv zeta in H; split_ifs; try discriminate;
  let Hu := fresh "Hu" in
  injection H as Hu <-;
  rewrite ?land_c0 in * by assumption; words; bools; try discriminate.

Ltac same_bytes b :=
  repeat match goal with
    | |- context [st b ?i ?z] =>
        rewrite (st_same b i z) by (rewrite ?sar32_byte by lia; div_lia)
    end;
  reflexivity.

Ltac encoded_bytes :=
  cbv zeta; rewrite ?is_surrogate_test by lia;
  decide_tests;
  rewrite ?sar32_nonneg by lia;
  rewrite ?lo8_mod, ?land_3f;
  rewrite ?lor_cont, ?lor_lead2, ?lor_lead3, ?lor_lead4 by div_lia.

Ltac java_flag java u :=
  destruct java; cbn [andb];
  rewrite ?(proj2 (Z.eqb_neq u 0)) by lia.

Lemma setUTF8_same_1 (java : bool) (b : list byte) (size u : Z) :
  1 <= size -> 0 <= u <= 0x7f -> java = false \/ u <> 0 -> ld b 0 = u ->
  setUTF8 (Some b) size u java = (true, Some b, 1).
Proof.
  intros Hsize Hu [-> | Hnz] Hb; unfold setUTF8; encoded_bytes;
    try java_flag java u; same_bytes b.
Qed.

Lemma setUTF8_same_null (b : list byte) (size : Z) :
  2 <= size -> ld b 0 = 0xc0 -> ld b 1 = 0x80 ->
  setUTF8 (Some b) size 0 true = (true, Some b, 2).
Proof. intros. unfold setUTF8. encoded_bytes. same_bytes b. Qed.

Lemma setUTF8_same_2 (java : bool) (b : list byte) (size u : Z) :
  2 <= size -> 0x80 <= u <= 0x7ff ->
  ld b 0 = 0xc0 + u / 64 -> ld b 1 = 0x80 + u mod 64 ->
  setUTF8 (Some b) size u java = (true, Some b, 2).
Proof. intros. unfold setUTF8. encoded_bytes. same_bytes b. Qed.

Lemma setUTF8_same_3 (java : bool) (b : list byte) (size u : Z) :
  3 <= size -> 0x800 <= u <= 0xffff -> ~ (0xd800 <= u <= 0xdfff) ->
  ld b 0 = 0xe0 + u / 4096 -> ld b 1 = 0x80 + u / 64 mod 64 ->
  ld b 2 = 0x80 + u mod 64 ->
  setUTF8 (Some b) size u java = (true, Some b, 3).
Proof.
  intros. unfold setUTF8.
  destruct (Z.le_gt_cases 0xd800 u); encoded_bytes; same_bytes b.
Qed.

Lemma setUTF8_same_4 (java : bool) (b : list byte) (size u : Z) :
  4 <= size -> 0x10000 <= u <= 0x10ffff ->
  ld b 0 = 0xf0 + u / 262144 -> ld b 1 = 0x80 + u / 4096 mod 64 ->
  ld b 2 = 0x80 + u / 64 mod 64 -> ld b 3 = 0x80 + u mod 64 ->
  setUTF8 (Some b) size u java = (true, Some b, 4).
Proof. intros. unfold setUTF8. encoded_bytes. same_bytes b. Qed.

(** What [getUTF8] accepts is what [setUTF8] writes for the decoded value.
    The one exception is the Java style decoder on the byte 00: it gives 0
    from one byte, and the Java style encoder writes C0 80 for 0. *)
Lemma utf8_canonical (java : bool) (b : list byte) (size u n : Z) :
  getUTF8 (Some b) size java = (true, u, n) ->
  (java = true -> u = 0 -> n = 2) ->
  setUTF8 (Some b) size u java = (true, Some b, n).
Proof.
  unfold getUTF8. intros H Hj. decoded H b.
  - apply setUTF8_same_1; try lia.
    destruct java; [ right; intros ->; now specialize (Hj eq_refl eq_refl) | now left ].
  - apply setUTF8_same_2; div_lia.
  - subst java. replace u with 0 by lia.
    apply setUTF8_same_null; div_lia.
  - apply setUTF8_same_3; div_lia.
  - apply setUTF8_same_4; div_lia.
Qed.

Lemma setUTF16le_same_2 (b : list byte) (size u : Z) :
  2 <= size -> 0 <= u <= 0xffff -> ~ (0xd800 <= u <= 0xdfff) ->
  u = ld b 1 * 256 + ld b 0 ->
  setUTF16le (Some b) size u = (true, Some b, 2).
Proof.
  intros. pose proof (ld_range b 0). unfold setUTF16le.
  destruct (Z.le_gt_cases 0xd800 u); encoded_bytes; same_bytes b.
Qed.

Lemma setUTF16be_same_2 (b : list byte) (size u : Z) :
  2 <= size -> 0 <= u <= 0xffff -> ~ (0xd800 <= u <= 0xdfff) ->
  u = ld b 0 * 256 + ld b 1 ->
  setUTF16be (Some b) size u = (true, Some b, 2).
Proof.
  intros. pose proof (ld_range b 1). unfold setUTF16be.
  destruct (Z.le_gt_cases 0xd800 u); encoded_bytes; same_bytes b.
Qed.

Ltac surrogate_facts u :=
  cbv zeta; fold (surrogate_word (sub32 u 0x10000));
  replace (sub32 u 0x10000) with (u - 0x10000)
    by (rewrite sub32_eq; symmetry; apply Z.mod_small; lia);
  pose proof (surrogate_word_low (u - 0x10000) ltac:(lia));
  pose proof (surrogate_word_high (u - 0x10000) ltac:(lia));
  pose proof (surrogate_word_range (u - 0x10000) ltac:(lia)).

Lemma setUTF16le_same_4 (b : list byte) (size u : Z) :
  4 <= size -> 0x10000 <= u <= 0x10ffff ->
  ld b 1 * 256 + ld b 0 = 0xd800 + (u - 0x10000) / 1024 ->
  ld b 3 * 256 + ld b 2 = 0xdc00 + (u - 0x10000) mod 1024 ->
  setUTF16le (Some b) size u = (true, Some b, 4).
Proof.
  intros. pose proof (ld_range b 0). pose proof (ld_range b 2).
  unfold setUTF16le. encoded_bytes. surrogate_facts u. same_bytes b.
Qed.

Lemma setUTF16be_same_4 (b : list byte) (size u : Z) :
  4 <= size -> 0x10000 <= u <= 0x10ffff ->
  ld b 0 * 256 + ld b 1 = 0xd800 + (u - 0x10000) / 1024 ->
  ld b 2 * 256 + ld b 3 = 0xdc00 + (u - 0x10000) mod 1024 ->
  setUTF16be (Some b) size u = (true, Some b, 4).
Proof.
  intros. pose proof (ld_range b 1). pose proof (ld_range b 3).
  unfold setUTF16be. encoded_bytes. surrogate_facts u. same_bytes b.
Qed.

Lemma utf16le_canonical (b : list byte) (size u n : Z) :
  getUTF16le (Some b) size = (true, u, n) ->
  setUTF16le (Some b) size u = (true, Some b, n).
Proof.
  unfold getUTF16le. intros H. decoded H b.
  - apply setUTF16le_same_2; div_lia.
  - apply setUTF16le_same_4; div_lia.
Qed.

Lemma utf16be_canonical (b : list byte) (size u n : Z) :
  getUTF16be (Some b) size = (true, u, n) ->
  setUTF16be (Some b) size u = (true, Some b, n).
Proof.
  unfold getUTF16be. intros H. decoded H b.
  - apply setUTF16be_same_2; div_lia.
  - apply setUTF16be_same_4; div_lia.
Qed.

Lemma setUTF32le_same (b : list byte) (size u : Z) :
  4 <= size -> 0 <= u <= 0x10ffff -> ~ (0xd800 <= u <= 0xdfff) ->
  u = ((ld b 3 * 256 + ld b 2) * 256 + ld b 1) * 256 + ld b 0 ->
  setUTF32le (Some b) size u = (true, Some b, 4).
Proof.
  intros. pose proof (ld_range b 0). pose proof (ld_range b 1).
  pose proof (ld_range b 2). pose proof (ld_range b 3).
  unfold setUTF32le.
  destruct (Z.le_gt_cases 0xd800 u); encoded_bytes; same_bytes b.
Qed.

Lemma setUTF32be_same (b : list byte) (size u : Z) :
  4 <= size -> 0 <= u <= 0x10ffff -> ~ (0xd800 <= u <= 0xdfff) ->
  u = ((ld b 0 * 256 + ld b 1) * 256 + ld b 2) * 256 + ld b 3 ->
  setUTF32be (Some b) size u = (true, Some b, 4).
Proof.
  intros. pose proof (ld_range b 0). pose proof (ld_range b 1).
  pose proof (ld_range b 2). pose proof (ld_range b 3).
  unfold setUTF32be.
  destruct (Z.le_gt_cases 0xd800 u); encoded_bytes; same_bytes b.
Qed.

Lemma utf32le_canonical (b : list byte) (size u n : Z) :
  getUTF32le (Some b) size = (true, u, n) ->
  setUTF32le (Some b) size u = (true, Some b, n).
Proof.
  unfold getUTF32le. intros H. decoded H b.
  apply setUTF32le_same; div_lia.
Qed.

Lemma utf32be_canonical (b : list byte) (size u n : Z) :
  getUTF32be (Some b) size = (true, u, n) ->
  setUTF32be (Some b) size u = (true, Some b, n).
Proof.
  unfold getUTF32be. intros H. decoded H b.
  apply setUTF32be_same; div_lia.
Qed.

End Canonical.

(** X6. Decoding accepts only the form that encoding produces: when a
    decoder of [getHandler] succeeds on a buffer, encoding the decoded
    value into the same buffer with the same capacity succeeds, reports
    the byte count the decoder reported and leaves every byte as it was.
    The one exception is the Java style decoder on the single byte 00,
    which it reads as 0 although the Java style encoder writes C0 80. *)
Theorem decode_then_encode (E : UTF_TYPE) (b : list byte) (size u n : Z) :
  IUTF.get (getHandler E) (Some b) size = (true, u, n) ->
  (E = OTHER -> u = 0 -> n = 2) ->
  IUTF.set (getHandler E) (Some b) size u = (true, Some b, n).
Proof.
  destruct E; handler_cases; intros H Hj.
  - apply utf8_canonical; [ exact H | discriminate ].
  - now apply utf16le_canonical.
  - now apply utf16be_canonical.
  - now apply utf32le_canonical.
  - now apply utf32be_canonical.
  - apply utf8_canonical; [ exact H | intros _; now apply Hj ].
Qed.

Lemma decode_then_encode_witness :
  IUTF.get (getHandler UTF8) (Some [Byte.xe2; Byte.x82; Byte.xac]) 3
    = (true, 0x20ac, 3) /\
  IUTF.set (getHandler UTF8) (Some [Byte.xe2; Byte.x82; Byte.xac]) 3 0x20ac
    = (true, Some [Byte.xe2; Byte.x82; Byte.xac], 3).
Proof.
  assert (Hget : IUTF.get (getHandler UTF8) (Some [Byte.xe2; Byte.x82; Byte.xac]) 3
                 = (true, 0x20ac, 3))
    by (vm_compute; reflexivity).
  split; [ exact Hget | ].
  apply (decode_then_encode UTF8 _ 3 0x20ac 3 Hget). discriminate.
Defined.



(** ** The single-byte forms *)

Section SingleByte.

Variable cp1252ToUnicode : Z -> option Z.
Variable unicodeToCP1252 : Z -> option Z.

(** X7. ISO 8859-1 and ASCII round-trip in one byte: every value up to
    0xff (0x7f with the ASCII flag) is encoded with success and a byte
    count of 1, the buffer changing at its first byte only, and decoding
    the written buffer gives the value back with a byte count of 1. *)
Theorem single_byte_round_trip (use_ascii : bool) (v : Z) (b : list byte)
    (size : Z) :
  0 <= v <= (if use_ascii then 0x7f else 0xff) ->
  1 <= size -> (1 <= length b)%nat ->
  setBYTE (Some b) size v use_ascii = (true, Some (st b 0 v), 1) /\
  length (st b 0 v) = length b /\
  (forall i : nat, (1 <= i)%nat -> st b 0 v !! i = b !! i) /\
  forall size', 1 <= size' ->
    getBYTE (Some (st b 0 v)) size' use_ascii = (true, v, 1).
Proof.
  intros Hv Hsize Hlen. unfold setBYTE.
  decide_tests.
  split; [ reflexivity | ]. split; [ apply length_st | ].
  split; [ intros i Hi; unfold st; apply list_lookup_insert_ne; lia | ].
  intros size' Hsize'. unfold getBYTE. cbv zeta.
  rewrite ld_st_eq, Z.mod_small by (destruct use_ascii; lia).
  decide_tests.
  destruct use_ascii; cbn [negb orb]; [ | reflexivity ].
  now rewrite (proj2 (Z.leb_le v 0x7f)) by lia.
Qed.

(** X8. Code page 1252, for tables that map [v] to a byte [c] and that
    byte back to [v]: up to 0xff the value is encoded with success and a
    byte count of 1, [c] being stored at the first byte and nothing else
    changing, and decoding the written buffer gives [v] back with a byte
    count of 1; above 0xff [setCP1252] refuses the value, whatever the
    table holds, so that a byte which [getCP1252] decodes to such a value
    cannot be written back. *)
Theorem cp1252_round_trip (v c : Z) (b : list byte) (size : Z) :
  unicodeToCP1252 v = Some c ->
  cp1252ToUnicode (c mod 256) = Some v ->
  0 <= v -> 1 <= size -> (1 <= length b)%nat ->
  if v <=? 0xff
  then
    setCP1252 unicodeToCP1252 (Some b) size v = (true, Some (st b 0 c), 1) /\
    length (st b 0 c) = length b /\
    (forall i : nat, (1 <= i)%nat -> st b 0 c !! i = b !! i) /\
    forall size', 1 <= size' ->
      getCP1252 cp1252ToUnicode (Some (st b 0 c)) size' = (true, v, 1)
  else setCP1252 unicodeToCP1252 (Some b) size v = (false, Some b, 0).
Proof.
  intros Hto Hfrom Hv Hsize Hlen.
  destruct (Z.leb_spec v 0xff) as [Hle | Hgt].
  - unfold setCP1252.
    decide_tests. rewrite Hto.
    split; [ reflexivity | ]. split; [ apply length_st | ].
    split; [ intros i Hi; unfold st; apply list_lookup_insert_ne; lia | ].
    intros size' Hsize'. unfold getCP1252. cbv zeta.
    rewrite ld_st_eq by lia. decide_tests. now rewrite Hfrom.
  - unfold setCP1252. decide_tests. reflexivity.
Qed.

End SingleByte.

Lemma single_byte_round_trip_witness :
  0 <= 0x41 <= (if true then 0x7f else 0xff) /\
  setBYTE (Some [Byte.x00]) 1 0x41 true = (true, Some (st [Byte.x00] 0 0x41), 1) /\
  getBYTE (Some (st [Byte.x00] 0 0x41)) 1 true = (true, 0x41, 1).
Proof.
  assert (Hv : 0 <= 0x41 <= (if true then 0x7f else 0xff)) by (simpl; lia).
  split; [ exact Hv | ].
  destruct (single_byte_round_trip true 0x41 [Byte.x00] 1 Hv)
    as (Hset & _ & _ & Hget); [ lia | simpl; lia | ].
  split; [ exact Hset | apply Hget; lia ].
Defined.

Lemma cp1252_round_trip_witness :
  (fun v => if v =? 0x20ac then Some 0x80 else None) 0x20ac = Some 0x80 /\
  (fun c => if c =? 0x80 then Some 0x20ac else None) (0x80 mod 256)
    = Some 0x20ac /\
  setCP1252 (fun v => if v =? 0x20ac then Some 0x80 else None)
            (Some [Byte.x00]) 1 0x20ac
    = (false, Some [Byte.x00], 0).
Proof.
  assert (Hto : (fun v => if v =? 0x20ac then Some 0x80 else None) 0x20ac
                = Some 0x80) by reflexivity.
  assert (Hfrom : (fun c => if c =? 0x80 then Some 0x20ac else None)
                    (0x80 mod 256) = Some 0x20ac) by reflexivity.
  split; [ exact Hto | ]. split; [ exact Hfrom | ].
  apply (cp1252_round_trip
           (fun c => if c =? 0x80 then Some 0x20ac else None)
           (fun v => if v =? 0x20ac then Some 0x80 else None)
           0x20ac 0x80 [Byte.x00] 1 Hto Hfrom); simpl; lia.
Defined.

(** ** Writing, then reading *)

Section WriteRead.

Lemma round_trip_handlers (E : UTF_TYPE) (r : Z) (b : list byte) (size : Z) :
  is_rune r -> 4 <= size <= Z.of_nat (length b) ->
  round_trips (IUTF.set (getHandler E)) (IUTF.get (getHandler E)) r b size.
Proof.
  intros Hr Hsize. destruct E; handler_cases.
  - exact (utf8_round_trip false r b size Hr Hsize).
  - exact (utf16le_round_trip r b size Hr Hsize).
  - exact (utf16be_round_trip r b size Hr Hsize).
  - exact (utf32le_round_trip r b size Hr Hsize).
  - exact (utf32be_round_trip r b size Hr Hsize).
  - exact (utf8_round_trip true r b size Hr Hsize).
Qed.

(** X9. Writing a rune at a cursor with at least four bytes left succeeds,
    keeps the length, moves the offset forward by one to four bytes, and
    reading at the old offset of the written text gives the rune back and
    arrives at the same cursor. *)
Theorem write_then_read (E : UTF_TYPE) (text : utf_text.t) (r : Z) :
  cursor_ok text -> is_rune r ->
  utf_text.offset text + 4 <= utf_text.length text ->
  exists text',
    IUTF.write (getHandler E) text r = (true, text') /\
    utf_text.length text' = utf_text.length text /\
    utf_text.offset text < utf_text.offset text' <= utf_text.offset text + 4 /\
    IUTF.read (getHandler E)
      (utf_text.mk (utf_text.length text') (utf_text.offset text)
                   (utf_text.buffer text'))
      = (true, r, text').
Proof.
  intros (b & Hb & Ho & Hl & Hcap) Hr Hroom.
  destruct text as [len off buf]. cbn [utf_text.length utf_text.offset utf_text.buffer] in *.
  subst buf.
  destruct (round_trip_handlers E r (drop (Z.to_nat off) b) (len - off) Hr)
    as (b' & n & Hset & Hlen & Hn & Hget).
  { rewrite length_drop. lia. }
  assert (Hsub : sub32 len off = len - off)
    by (rewrite sub32_eq; apply Z.mod_small; lia).
  assert (Hadd : add32 off n = off + n)
    by (rewrite add32_eq; apply Z.mod_small; lia).
  exists (utf_text.mk len (off + n) (Some (take (Z.to_nat off) b ++ b'))).
  unfold IUTF.write, IUTF.read, IUTF.set_text, IUTF.get_text, IUTF.advance.
  cbn [utf_text.length utf_text.offset utf_text.buffer ptr_at ptr_merge fmap option_fmap option_map].
  rewrite (proj2 (Z.leb_le off len)), Hsub, Hset by lia.
  cbn [utf_text.length utf_text.offset utf_text.buffer ptr_at ptr_merge].
  rewrite Hadd. split; [ reflexivity | ]. split; [ reflexivity | ].
  split; [ lia | ].
  rewrite drop_app_length' by (rewrite length_take; lia).
  rewrite Hget by lia. now rewrite Hadd.
Qed.

End WriteRead.

Lemma write_then_read_witness :
  cursor_ok (utf_text.mk 5 1 (Some [Byte.x41; Byte.x00; Byte.x00; Byte.x00; Byte.x00])) /\
  is_rune 0x20ac /\
  exists text',
    IUTF.write (getHandler UTF16be)
      (utf_text.mk 5 1 (Some [Byte.x41; Byte.x00; Byte.x00; Byte.x00; Byte.x00]))
      0x20ac = (true, text') /\
    utf_text.length text' = 5 /\
    1 < utf_text.offset text' <= 1 + 4 /\
    IUTF.read (getHandler UTF16be)
      (utf_text.mk (utf_text.length text') 1 (utf_text.buffer text'))
      = (true, 0x20ac, text').
Proof.
  assert (Hok : cursor_ok (utf_text.mk 5 1
                  (Some [Byte.x41; Byte.x00; Byte.x00; Byte.x00; Byte.x00]))).
  { exists [Byte.x41; Byte.x00; Byte.x00; Byte.x00; Byte.x00].
    simpl. repeat split; lia. }
  assert (Hr : is_rune 0x20ac) by (unfold is_rune; lia).
  split; [ exact Hok | ]. split; [ exact Hr | ].
  apply (write_then_read UTF16be _ 0x20ac Hok Hr). simpl. lia.
Defined.


(** ** Identifying the encoding *)

Section Identify.

(** X10. [identifyUTF] reports a non-zero byte count only for a mark that
    is there: the count is then the length of the byte-order mark of the
    encoding it returns, that many bytes are inside [size], and the buffer
    begins with exactly that mark. *)
Theorem identifyUTF_bom_sound (buffer : ptr) (size : Z) (t : UTF_TYPE) (n : Z) :
  identifyUTF buffer size = (t, n) ->
  n = 0 \/
  (n = Z.of_nat (length (bom t)) /\ n <= size /\
   exists b, buffer = Some b /\ leading b (length (bom t)) = bom t).
Proof.
  unfold identifyUTF. destruct buffer as [b | ];
    [ | intros H; injection H as <- <-; now left ].
  destruct (identify_bom b size) as [[t' n'] | ] eqn:Hbom.
  - intros H. injection H as <- <-. right.
    unfold identify_bom, or_else in Hbom.
    split_ifs; simplify_eq; bools;
      (split; [ reflexivity | ]); (split; [ lia | ]);
      exists b; (split; [ reflexivity | ]);
      unfold leading; cbn [bom length seq map]; congruence.
  - intros H. left.
    destruct (identify_ascii b size); now injection H as <- <-.
Qed.

Ltac ascii_pair size :=
  unfold identifyUTF, identify_bom, identify_ascii, or_else, ld_char;
  cbv zeta; rewrite ?ld_cons_S, ?ld_cons_0;
  change (byte.unsigned Byte.x00) with 0;
  repeat match goal with
    | |- context [?k <=? size] =>
        first [ rewrite (proj2 (Z.leb_le k size)) by lia
              | destruct (Z.leb_spec k size) ]
    end;
  repeat match goal with
    | |- context [?x =? ?y] =>
        first [ rewrite (proj2 (Z.eqb_neq x y)) by lia
              | rewrite (proj2 (Z.eqb_eq x y)) by lia ]
    | |- context [?x <? ?y] =>
        first [ rewrite (proj2 (Z.ltb_lt x y)) by lia
              | rewrite (proj2 (Z.ltb_ge x y)) by lia ]
    end;
  reflexivity.

Lemma identify_ascii_utf8 (c1 c2 : byte) (rest : list byte) (size : Z) :
  1 <= byte.unsigned c1 <= 0x7f -> 1 <= byte.unsigned c2 <= 0x7f ->
  2 <= size ->
  identifyUTF (Some (c1 :: c2 :: rest)) size = (UTF8, 0).
Proof. intros. ascii_pair size. Qed.

Lemma identify_ascii_utf16le (c1 c2 : byte) (rest : list byte) (size : Z) :
  1 <= byte.unsigned c1 <= 0x7f -> 1 <= byte.unsigned c2 <= 0x7f ->
  4 <= size ->
  identifyUTF (Some (c1 :: Byte.x00 :: c2 :: Byte.x00 :: rest)) size = (UTF16le, 0).
Proof. intros. ascii_pair size. Qed.

Lemma identify_ascii_utf16be (c1 c2 : byte) (rest : list byte) (size : Z) :
  1 <= byte.unsigned c1 <= 0x7f -> 1 <= byte.unsigned c2 <= 0x7f ->
  4 <= size ->
  identifyUTF (Some (Byte.x00 :: c1 :: Byte.x00 :: c2 :: rest)) size = (UTF16be, 0).
Proof. intros. ascii_pair size. Qed.

Lemma identify_ascii_utf32le (c1 c2 : byte) (rest : list byte) (size : Z) :
  1 <= byte.unsigned c1 <= 0x7f -> 1 <= byte.unsigned c2 <= 0x7f ->
  8 <= size ->
  identifyUTF
    (Some (c1 :: Byte.x00 :: Byte.x00 :: Byte.x00 ::
           c2 :: Byte.x00 :: Byte.x00 :: Byte.x00 :: rest)) size = (UTF32le, 0).
Proof. intros. ascii_pair size. Qed.

Lemma identify_ascii_utf32be (c1 c2 : byte) (rest : list byte) (size : Z) :
  1 <= byte.unsigned c1 <= 0x7f -> 1 <= byte.unsigned c2 <= 0x7f ->
  8 <= size ->
  identifyUTF
    (Some (Byte.x00 :: Byte.x00 :: Byte.x00 :: c1 ::
           Byte.x00 :: Byte.x00 :: Byte.x00 :: c2 :: rest)) size = (UTF32be, 0).
Proof. intros. ascii_pair size. Qed.

End Identify.

(** X11. Without a byte-order mark, two ASCII characters (0x01..0x7f) in
    an encoding, inside [size], are enough for [identifyUTF] to return
    that encoding with a byte count of 0, whatever follows them. *)
Theorem identifyUTF_ascii (t : UTF_TYPE) (c1 c2 : byte) (rest : list byte)
    (size : Z) :
  t <> OTHER ->
  1 <= byte.unsigned c1 <= 0x7f -> 1 <= byte.unsigned c2 <= 0x7f ->
  Z.of_nat (length (ascii_text t c1 c2)) <= size ->
  identifyUTF (Some (ascii_text t c1 c2 ++ rest)) size = (t, 0).
Proof.
  intros Ht H1 H2 Hsize. destruct t; cbn [ascii_text length app] in *.
  - apply identify_ascii_utf8; lia.
  - apply identify_ascii_utf16le; lia.
  - apply identify_ascii_utf16be; lia.
  - apply identify_ascii_utf32le; lia.
  - apply identify_ascii_utf32be; lia.
  - congruence.
Qed.

Lemma identifyUTF_bom_sound_witness :
  identifyUTF (Some [Byte.xff; Byte.xfe; Byte.x41; Byte.x00]) 4 = (UTF16le, 2) /\
  (2 = 0 \/
   (2 = Z.of_nat (length (bom UTF16le)) /\ 2 <= 4 /\
    exists b, Some [Byte.xff; Byte.xfe; Byte.x41; Byte.x00] = Some b /\
              leading b (length (bom UTF16le)) = bom UTF16le)).
Proof.
  assert (H : identifyUTF (Some [Byte.xff; Byte.xfe; Byte.x41; Byte.x00]) 4
              = (UTF16le, 2)) by (vm_compute; reflexivity).
  split; [ exact H | exact (identifyUTF_bom_sound _ _ _ _ H) ].
Defined.

Lemma identifyUTF_ascii_witness :
  UTF16be <> OTHER /\
  identifyUTF (Some (ascii_text UTF16be Byte.x48 Byte.x69 ++ [Byte.xff])) 4
    = (UTF16be, 0).
Proof.
  assert (Ht : UTF16be <> OTHER) by discriminate.
  split; [ exact Ht | ].
  apply (identifyUTF_ascii UTF16be Byte.x48 Byte.x69 [Byte.xff] 4 Ht).
  - vm_compute. split; discriminate.
  - vm_compute. split; discriminate.
  - simpl. lia.
Defined.



(** ** Scanning lines *)

Section Lines.

Variable cp1252ToUnicode : Z -> option Z.
Variable unicodeToCP1252 : Z -> option Z.

(** A cursor moved forward inside its remaining bytes. *)
Lemma advance_inside (text : utf_text.t) (n : Z) :
  cursor_ok text -> 0 <= n <= remaining text ->
  IUTF.advance text n
    = utf_text.mk (utf_text.length text) (utf_text.offset text + n)
                  (utf_text.buffer text) /\
  cursor_ok (IUTF.advance text n) /\
  remaining (IUTF.advance text n) = remaining text - n.
Proof.
  intros (b & Hb & Ho & Hl & Hcap) Hn. unfold remaining in *.
  assert (Hadd : add32 (utf_text.offset text) n = utf_text.offset text + n).
  { rewrite add32_eq. apply Z.mod_small.
    destruct (Z.leb_spec (utf_text.offset text) (utf_text.length text)); lia. }
  unfold IUTF.advance. rewrite Hadd. split; [ reflexivity | ].
  cbn [utf_text.length utf_text.offset utf_text.buffer].
  split.
  - exists b. cbn [utf_text.length utf_text.offset utf_text.buffer].
    destruct (Z.leb_spec (utf_text.offset text) (utf_text.length text)); 
      repeat split; try assumption; lia.
  - destruct (Z.leb_spec (utf_text.offset text) (utf_text.length text));
      destruct (Z.leb_spec (utf_text.offset text + n) (utf_text.length text)); lia.
Qed.

Lemma getNLF_served (h : IUTF.handler) (text : utf_text.t) (ok : bool) (u n : Z) :
  served cp1252ToUnicode unicodeToCP1252 h -> cursor_ok text ->
  IUTF.getNLF h text = (ok, u, n) ->
  0 <= n <= remaining text /\
  (ok = true ->
   1 <= n /\
   u <> 0x0d /\ u <> 0x0b /\ u <> 0x0c /\ u <> 0x85 /\ u <> 0x2028 /\ u <> 0x2029).
Proof.
  intros Hh Hok H. unfold IUTF.getNLF in H.
  destruct (IUTF.get_text h text) as [[ok1 u1] n1] eqn:Hget.
  destruct (get_text_reported _ _ h text ok1 u1 n1 Hh Hok Hget) as [Hs Hf].
  assert (Hrem : 0 <= remaining text)
    by (unfold remaining; destruct (Z.leb_spec (utf_text.offset text) (utf_text.length text)); lia).
  assert (Hu : 0 < IUTF.unitSize h)
    by (destruct Hh as [[E ->] | [O ->]]; [ destruct E | destruct O ]; reflexivity).
  destruct ok1.
  - specialize (Hs eq_refl).
    destruct (advance_inside text n1 Hok ltac:(lia)) as (_ & Hok' & Hrem').
    destruct (IUTF.get_text h (IUTF.advance text n1)) as [[ok2 u2] n2] eqn:Hget2.
    destruct (get_text_reported _ _ h _ ok2 u2 n2 Hh Hok' Hget2) as [Hs2 Hf2].
    rewrite Hrem' in *.
    assert (Hn2 : ok2 = true -> add32 n1 n2 = n1 + n2 /\ 1 <= n2 <= remaining text - n1).
    { intros ->. specialize (Hs2 eq_refl). split; [ | lia ].
      rewrite add32_eq. apply Z.mod_small.
      destruct Hok as (b & _ & Ho & Hl & _). unfold remaining in *.
      destruct (Z.leb_spec (utf_text.offset text) (utf_text.length text)); lia. }
    split_ifs; injection H as <- <- <-; bools;
      try match goal with
          | Hp : ok2 = true |- _ => destruct (Hn2 Hp) as [-> ?]
          end;
      (split; [ lia | intros _; repeat split; lia ]).
  - specialize (Hf eq_refl). injection H as <- <- <-.
    split; [ | discriminate ].
    destruct (IUTF.unitSize h <=? remaining text) eqn:Hle; bools; lia.
Qed.

Lemma remaining_range (text : utf_text.t) :
  cursor_ok text ->
  0 <= remaining text <= utf_text.length text /\
  (utf_text.offset text <= utf_text.length text ->
   remaining text = utf_text.length text - utf_text.offset text).
Proof.
  intros (b & _ & Ho & Hl & _). unfold remaining.
  destruct (Z.leb_spec (utf_text.offset text) (utf_text.length text)); lia.
Qed.

Lemma getLine_loop_eq (fuel : nat) (h : IUTF.handler) (scan : utf_text.t) :
  IUTF.getLine_loop fuel h scan =
  let '(found, unicode, bytes) := IUTF.getNLF h scan in
  if found then
    if (unicode =? 0x0a) || (unicode =? 0x00) then
      Some (true,
            utf_text.mk (utf_text.offset scan) 0 (utf_text.buffer scan),
            add32 bytes (utf_text.offset scan))
    else
      match fuel with
      | O => None
      | S fuel' => IUTF.getLine_loop fuel' h (IUTF.advance scan bytes)
      end
  else Some (false, IUTF.no_line, bytes).
Proof. destruct fuel; reflexivity. Qed.

Lemma getLine_loop_served (h : IUTF.handler) :
  served cp1252ToUnicode unicodeToCP1252 h ->
  forall (fuel : nat) (scan : utf_text.t),
    cursor_ok scan ->
    utf_text.offset scan <= utf_text.length scan ->
    (Z.to_nat (remaining scan) <= fuel)%nat ->
    exists ok line n,
      IUTF.getLine_loop fuel h scan = Some (ok, line, n) /\
      0 <= n <= utf_text.length scan /\
      (ok = true ->
       exists L, line = utf_text.mk L 0 (utf_text.buffer scan) /\
                 utf_text.offset scan <= L < n) /\
      (ok = false -> line = IUTF.no_line).
Proof.
  intros Hh. induction fuel as [ | fuel IH]; intros scan Hok Hle Hfuel.
  all: rewrite getLine_loop_eq.
  all: destruct (IUTF.getNLF h scan) as [[found u] nb] eqn:Hnlf.
  all: destruct (getNLF_served h scan found u nb Hh Hok Hnlf) as [Hnb Hfound].
  all: destruct (remaining_range scan Hok) as [Hrem Hrem'].
  all: specialize (Hrem' Hle).
  all: assert (Hadd : add32 nb (utf_text.offset scan) = nb + utf_text.offset scan)
         by (rewrite add32_eq; apply Z.mod_small;
             destruct Hok as (b & _ & Ho & Hl & _); lia).
  all: destruct found;
         [ destruct (Hfound eq_refl) as [Hone _]
         | eexists _, _, _; (split; [ reflexivity | ]);
           (split; [ lia | ]); (split; [ discriminate | reflexivity ]) ].
  all: destruct ((u =? 0x0a) || (u =? 0x00));
         [ eexists _, _, _; (split; [ reflexivity | ]); rewrite Hadd;
           (split; [ lia | ]);
           (split; [ intros _; eexists; split; [ reflexivity | lia ] | discriminate ])
         | ].
  - exfalso. lia.
  - destruct (advance_inside scan nb Hok ltac:(lia)) as (Hadv & Hok' & Hrem2).
    destruct (IH (IUTF.advance scan nb) Hok') as (ok & line & n & Hloop & Hn & Ht & Hf).
    + rewrite Hadv. cbn [utf_text.length utf_text.offset]. lia.
    + rewrite Hrem2. lia.
    + rewrite Hloop. exists ok, line, n. split; [ reflexivity | ].
      rewrite Hadv in Hn, Ht. cbn [utf_text.length utf_text.offset utf_text.buffer] in Hn, Ht.
      split; [ exact Hn | ]. split; [ | exact Hf ].
      intros Htrue. destruct (Ht Htrue) as (L & -> & HL).
      exists L. split; [ reflexivity | lia ].
Qed.

Lemma getLine_served (h : IUTF.handler) (fuel : nat) (text : utf_text.t) :
  served cp1252ToUnicode unicodeToCP1252 h ->
  cursor_ok text ->
  (Z.to_nat (remaining text) <= fuel)%nat ->
  exists ok line n,
    IUTF.getLine fuel h text = Some (ok, line, n) /\
    0 <= n <= remaining text /\
    (ok = true ->
     exists L, line = utf_text.mk L 0 (ptr_at (utf_text.buffer text)
                                              (utf_text.offset text)) /\
               0 <= L < n) /\
    (ok = false -> line = IUTF.no_line).
Proof.
  intros Hh Hok Hfuel. unfold IUTF.getLine.
  destruct (remaining_range text Hok) as [Hrem Hrem'].
  pose proof Hok as (b & Hb & Ho & Hl & Hcap). rewrite Hb.
  cbn [andb ptr_at fmap option_fmap option_map].
  destruct (Z.leb_spec (utf_text.offset text) (utf_text.length text)) as [Hle | Hgt].
  - specialize (Hrem' Hle).
    assert (Hsub : sub32 (utf_text.length text) (utf_text.offset text) = remaining text)
      by (rewrite sub32_eq, Hrem'; apply Z.mod_small; lia).
    rewrite Hsub.
    set (scan := utf_text.mk (remaining text) 0
                   (Some (drop (Z.to_nat (utf_text.offset text)) b))).
    assert (Hscan : cursor_ok scan).
    { exists (drop (Z.to_nat (utf_text.offset text)) b).
      cbn [scan utf_text.length utf_text.offset utf_text.buffer].
      rewrite length_drop. repeat split; lia. }
    assert (Hrs : remaining scan = remaining text).
    { unfold remaining at 1. cbn [scan utf_text.length utf_text.offset].
      rewrite (proj2 (Z.leb_le 0 (remaining text))) by lia. lia. }
    destruct (getLine_loop_served h Hh fuel scan Hscan) as (ok & line & n & Hloop & Hn & Ht & Hf).
    + cbn [scan utf_text.length utf_text.offset]. lia.
    + rewrite Hrs. exact Hfuel.
    + exists ok, line, n. split; [ exact Hloop | ].
      cbn [scan utf_text.length utf_text.offset utf_text.buffer] in Hn, Ht.
      split; [ exact Hn | ]. split; [ exact Ht | exact Hf ].
  - eexists _, _, _. split; [ reflexivity | ].
    split; [ lia | ]. split; [ discriminate | reflexivity ].
Qed.

Lemma add32_assoc (x y z : Z) : add32 (add32 x y) z = add32 x (add32 y z).
Proof.
  rewrite !add32_eq. rewrite Zplus_mod_idemp_l, Zplus_mod_idemp_r.
  f_equal. lia.
Qed.

(** The test [unicode == (pairing ^ 0x0007)] on a line feed or a carriage
    return holds for the other one of the two only. *)
Lemma pairing_test (u p : Z) :
  u = 0x0a \/ u = 0x0d ->
  (u =? Z.lxor p 0x0007) = is_newline_pair u p.
Proof.
  intros Hu. unfold is_newline_pair.
  assert (Hp : p = Z.lxor (Z.lxor p 7) 7)
    by (now rewrite Z.lxor_assoc, Z.lxor_nilpotent, Z.lxor_0_r).
  destruct (Z.eqb_spec u (Z.lxor p 7)) as [He | Hne].
  - rewrite <- He in Hp.
    destruct Hu as [-> | ->]; subst p; reflexivity.
  - destruct Hu as [-> | ->]; cbn [Z.eqb Pos.eqb andb orb].
    + destruct (Z.eqb_spec p 0x0d) as [-> | ]; [ now destruct Hne | reflexivity ].
    + destruct (Z.eqb_spec p 0x0a) as [-> | ]; [ now destruct Hne | reflexivity ].
Qed.

(** [readNLF] in terms of [read]: one read, its value normalised, and a
    second read when the two values are a CR+LF or LF+CR pair. *)
Lemma readNLF_reads (h : IUTF.handler) (text : utf_text.t) :
  IUTF.readNLF h text =
  let '(ok, first, text1) := IUTF.read h text in
  (ok,
   if ok && is_newline first then 0x0a else first,
   if ok && ((first =? 0x0a) || (first =? 0x0d)) then
     match IUTF.read h text1 with
     | (true, second, text2) =>
         if is_newline_pair first second then text2 else text1
     | _ => text1
     end
   else text1).
Proof.
  unfold IUTF.readNLF, IUTF.getNLF, IUTF.read.
  destruct (IUTF.get_text h text) as [[ok u1] n1].
  destruct ok; [ | reflexivity ]. cbn [andb].
  destruct ((u1 =? 0x0a) || (u1 =? 0x0d)) eqn:Hpair.
  - assert (Hu : u1 = 0x0a \/ u1 = 0x0d).
    { apply orb_true_iff in Hpair. destruct Hpair as [H | H];
        apply Z.eqb_eq in H; [ now left | now right ]. }
    assert (Hnl : is_newline u1 = true)
      by (destruct Hu as [-> | ->]; reflexivity).
    rewrite Hnl.
    destruct (IUTF.get_text h (IUTF.advance text n1)) as [[paired p] extra].
    destruct paired; cbn [andb]; [ | reflexivity ].
    rewrite (pairing_test u1 p Hu).
    destruct (is_newline_pair u1 p); [ | reflexivity ].
    f_equal. unfold IUTF.advance.
    cbn [utf_text.length utf_text.offset utf_text.buffer].
    now rewrite add32_assoc.
  - apply orb_false_iff in Hpair. destruct Hpair as [Ha Hd].
    unfold is_newline. rewrite Ha, Hd. cbn [orb].
    destruct ((u1 =? 0x0b) || (u1 =? 0x0c) || (u1 =? 0x85)
              || (u1 =? 0x2028) || (u1 =? 0x2029)) eqn:Hother.
    + replace ((u1 =? 0x0b) || (u1 =? 0x0c) || false || (u1 =? 0x85)
               || (u1 =? 0x2028) || (u1 =? 0x2029)) with true
        by (rewrite orb_false_r; now rewrite Hother).
      reflexivity.
    + replace ((u1 =? 0x0b) || (u1 =? 0x0c) || false || (u1 =? 0x85)
               || (u1 =? 0x2028) || (u1 =? 0x2029)) with false
        by (rewrite orb_false_r; now rewrite Hother).
      reflexivity.
Qed.

(** X12. [readNLF] is one [read], followed by a second [read] exactly when
    the first gave a carriage return or a line feed and the second gives
    the other one of the two (CR+LF and LF+CR are consumed as one
    boundary); the value it gives is 0x0A when the first read succeeded
    with a line feed, vertical tab, form feed, carriage return, next line,
    line separator or paragraph separator, and the value read otherwise;
    a failed first read is passed on as it is.  The cursor moves forward
    inside the remaining bytes and nothing else of it changes; on success
    at least one byte was consumed, and the value is never a carriage
    return, vertical tab, form feed, next line, line separator or
    paragraph separator. *)
Theorem readNLF_normalised (h : IUTF.handler) (text text' : utf_text.t)
    (ok : bool) (u : Z) :
  served cp1252ToUnicode unicodeToCP1252 h -> cursor_ok text ->
  IUTF.readNLF h text = (ok, u, text') ->
  cursor_ok text' /\
  utf_text.length text' = utf_text.length text /\
  utf_text.buffer text' = utf_text.buffer text /\
  utf_text.offset text <= utf_text.offset text'
    <= utf_text.offset text + remaining text /\
  (ok = true ->
   utf_text.offset text < utf_text.offset text' /\
   u <> 0x0d /\ u <> 0x0b /\ u <> 0x0c /\ u <> 0x85 /\ u <> 0x2028 /\ u <> 0x2029) /\
  exists first text1,
    IUTF.read h text = (ok, first, text1) /\
    u = (if ok && is_newline first then 0x0a else first) /\
    text' = (if ok && ((first =? 0x0a) || (first =? 0x0d)) then
               match IUTF.read h text1 with
               | (true, second, text2) =>
                   if is_newline_pair first second then text2 else text1
               | _ => text1
               end
             else text1).
Proof.
  intros Hh Hok H. pose proof (readNLF_reads h text) as Hreads.
  rewrite H in Hreads. unfold IUTF.readNLF in H.
  destruct (IUTF.getNLF h text) as [[ok1 u1] n] eqn:Hnlf.
  injection H as <- <- <-.
  destruct (getNLF_served h text ok1 u1 n Hh Hok Hnlf) as [Hn Ht].
  destruct (advance_inside text n Hok Hn) as (Hadv & Hok' & _).
  split; [ exact Hok' | ]. rewrite Hadv in *.
  cbn [utf_text.length utf_text.offset utf_text.buffer].
  split; [ reflexivity | ]. split; [ reflexivity | ]. split; [ lia | ].
  split.
  - intros Htrue. destruct (Ht Htrue) as [Hone Hne]. split; [ lia | exact Hne ].
  - destruct (IUTF.read h text) as [[ok2 first] text1].
    injection Hreads as Hk Hu Hx. subst ok2.
    exists first, text1. split; [ reflexivity | ]. split; assumption.
Qed.

(** X13. [readLine] ends within as many turns of its loop as bytes remain
    and moves the cursor forward inside the remaining bytes; a line it
    reports is a view that starts at the old cursor position and is
    shorter than the bytes consumed, its boundary being among them; when
    it reports none the line is the null view. *)
Theorem readLine_total (h : IUTF.handler) (fuel : nat) (text : utf_text.t) :
  served cp1252ToUnicode unicodeToCP1252 h ->
  cursor_ok text ->
  (Z.to_nat (remaining text) <= fuel)%nat ->
  exists ok line text',
    IUTF.readLine fuel h text = Some (ok, line, text') /\
    cursor_ok text' /\
    utf_text.offset text <= utf_text.offset text'
      <= utf_text.offset text + remaining text /\
    (ok = true ->
     exists L,
       line = utf_text.mk L 0 (ptr_at (utf_text.buffer text)
                                      (utf_text.offset text)) /\
       0 <= L < utf_text.offset text' - utf_text.offset text) /\
    (ok = false -> line = IUTF.no_line).
Proof.
  intros Hh Hok Hfuel. unfold IUTF.readLine.
  destruct (getLine_served h fuel text Hh Hok Hfuel)
    as (ok & line & n & -> & Hn & Ht & Hf).
  destruct (advance_inside text n Hok Hn) as (Hadv & Hok' & _).
  exists ok, line, (IUTF.advance text n).
  split; [ reflexivity | ]. split; [ exact Hok' | ]. rewrite Hadv.
  cbn [utf_text.length utf_text.offset utf_text.buffer].
  split; [ lia | ]. split; [ | exact Hf ].
  intros Htrue. destruct (Ht Htrue) as (L & -> & HL).
  exists L. split; [ reflexivity | lia ].
Qed.

End Lines.

Lemma readNLF_normalised_witness :
  served (fun _ => None) (fun _ => None) CUTF8 /\
  cursor_ok (utf_text.mk 3 0 (Some [Byte.x0d; Byte.x0a; Byte.x41])) /\
  IUTF.readNLF CUTF8 (utf_text.mk 3 0 (Some [Byte.x0d; Byte.x0a; Byte.x41]))
    = (true, 0x0a, utf_text.mk 3 2 (Some [Byte.x0d; Byte.x0a; Byte.x41])) /\
  cursor_ok (utf_text.mk 3 2 (Some [Byte.x0d; Byte.x0a; Byte.x41])).
Proof.
  assert (Hh : served (fun _ => None) (fun _ => None) CUTF8)
    by (left; exists UTF8; reflexivity).
  assert (Hok : cursor_ok (utf_text.mk 3 0 (Some [Byte.x0d; Byte.x0a; Byte.x41]))).
  { exists [Byte.x0d; Byte.x0a; Byte.x41]. simpl. repeat split; lia. }
  assert (Hread : IUTF.readNLF CUTF8
                    (utf_text.mk 3 0 (Some [Byte.x0d; Byte.x0a; Byte.x41]))
                  = (true, 0x0a,
                     utf_text.mk 3 2 (Some [Byte.x0d; Byte.x0a; Byte.x41])))
    by (vm_compute; reflexivity).
  split; [ exact Hh | ]. split; [ exact Hok | ]. split; [ exact Hread | ].
  exact (proj1 (readNLF_normalised _ _ CUTF8 _ _ _ _ Hh Hok Hread)).
Defined.

Lemma readLine_total_witness :
  served (fun _ => None) (fun _ => None) CUTF8 /\
  cursor_ok (utf_text.mk 3 0 (Some [Byte.x41; Byte.x0a; Byte.x42])) /\
  exists ok line text',
    IUTF.readLine 3 CUTF8 (utf_text.mk 3 0 (Some [Byte.x41; Byte.x0a; Byte.x42]))
      = Some (ok, line, text') /\
    cursor_ok text'.
Proof.
  assert (Hh : served (fun _ => None) (fun _ => None) CUTF8)
    by (left; exists UTF8; reflexivity).
  assert (Hok : cursor_ok (utf_text.mk 3 0 (Some [Byte.x41; Byte.x0a; Byte.x42]))).
  { exists [Byte.x41; Byte.x0a; Byte.x42]. simpl. repeat split; lia. }
  split; [ exact Hh | ]. split; [ exact Hok | ].
  destruct (readLine_total _ _ CUTF8 3 _ Hh Hok) as (ok & line & text' & H & Hc & _).
  - vm_compute. lia.
  - exists ok, line, text'. split; [ exact H | exact Hc ].
Defined.

(** ** String sizes and lengths *)


Section Strings.

Lemma add32_small (x y : Z) : 0 <= x + y < 2 ^ 32 -> add32 x y = x + y.
Proof. intros H. rewrite add32_eq. now apply Z.mod_small. Qed.

(** Reading inside the part that follows a prefix. *)
Lemma at_index_app (p l : list byte) (index k : Z) (i : nat) :
  index = Z.of_nat (length p) -> k = Z.of_nat i ->
  index + k < 2 ^ 32 ->
  at_index (p ++ l) index k = ld l i.
Proof.
  intros -> -> Hlt. unfold at_index, ld.
  rewrite add32_small by lia.
  replace (Z.to_nat (Z.of_nat (length p) + Z.of_nat i)) with (length p + i)%nat by lia.
  now rewrite lookup_app_r, Nat.add_comm, Nat.add_sub by lia.
Qed.

Lemma unsigned_zero (c : byte) : byte.unsigned c = 0 <-> c = Byte.x00.
Proof.
  split; [ intros H; now apply byte.unsigned_inj | now intros -> ].
Qed.

Lemma strsizeUTF8_loop_finds (s rest : list byte) :
  Byte.x00 ∉ s ->
  forall (fuel : nat) (p : list byte),
    Z.of_nat (length p + length s) < 2 ^ 32 ->
    (length s <= fuel)%nat ->
    strsizeUTF8_loop fuel (p ++ s ++ Byte.x00 :: rest) (Z.of_nat (length p))
      = Some (Z.of_nat (length p + length s)).
Proof.
  induction s as [ | c s IH]; intros Hnz fuel p Hlen Hfuel.
  - destruct fuel; cbn [strsizeUTF8_loop app];
      rewrite (at_index_app p _ _ 0 0) by (reflexivity || lia);
      rewrite ld_cons_0; cbn; do 2 f_equal; lia.
  - apply not_elem_of_cons in Hnz. destruct Hnz as [Hc Hs].
    destruct fuel as [ | fuel]; [ cbn [length] in Hfuel; lia | ].
    cbn [strsizeUTF8_loop].
    rewrite (at_index_app p _ _ 0 0) by (reflexivity || cbn [length] in Hlen; lia).
    cbn [app]. rewrite ld_cons_0.
    assert (Hne : byte.unsigned c <> 0) by (rewrite unsigned_zero; congruence).
    rewrite (proj2 (Z.eqb_neq _ _) Hne). cbn [negb].
    rewrite add32_small by (cbn [length] in Hlen; lia).
    specialize (IH Hs fuel (p ++ [c])).
    rewrite length_app in IH. cbn [length] in IH, Hlen, Hfuel.
    rewrite <- app_assoc in IH. cbn [app] in IH.
    replace (Z.of_nat (length p) + 1) with (Z.of_nat (length p + 1)) by lia.
    rewrite IH by lia. cbn [length]. do 2 f_equal. lia.
Qed.

Lemma count_leads_cons (c : byte) (l : list byte) :
  count_leads (c :: l) = (if is_lead c then 1 else 0) + count_leads l.
Proof.
  unfold count_leads. rewrite filter_cons.
  destruct (is_lead c); cbn [length].
  - rewrite decide_True by reflexivity. cbn [length]. lia.
  - rewrite decide_False by discriminate. lia.
Qed.

Lemma count_leads_app (l1 l2 : list byte) :
  count_leads (l1 ++ l2) = count_leads l1 + count_leads l2.
Proof.
  induction l1 as [ | c l1 IH]; [ reflexivity | ].
  cbn [app]. rewrite !count_leads_cons, IH. lia.
Qed.

Lemma count_leads_range (l : list byte) :
  0 <= count_leads l <= Z.of_nat (length l).
Proof.
  induction l as [ | c l IH]; [ unfold count_leads; cbn; lia | ].
  rewrite count_leads_cons. cbn [length]. destruct (is_lead c); lia.
Qed.

Lemma strlenUTF8_loop_counts (s rest : list byte) :
  Byte.x00 ∉ s ->
  forall (fuel : nat) (p : list byte) (count : Z),
    Z.of_nat (length p + length s) < 2 ^ 32 ->
    0 <= count -> count + Z.of_nat (length s) < 2 ^ 32 ->
    (length s <= fuel)%nat ->
    strlenUTF8_loop fuel (p ++ s ++ Byte.x00 :: rest) (Z.of_nat (length p)) count
      = Some (count + count_leads s).
Proof.
  induction s as [ | c s IH]; intros Hnz fuel p count Hlen Hc Hcount Hfuel.
  - destruct fuel; cbn [strlenUTF8_loop app];
      rewrite (at_index_app p _ _ 0 0) by (reflexivity || lia);
      rewrite ld_cons_0; unfold count_leads; cbn; f_equal; lia.
  - apply not_elem_of_cons in Hnz. destruct Hnz as [Hne Hs].
    cbn [length] in Hlen, Hcount, Hfuel.
    destruct fuel as [ | fuel]; [ lia | ].
    cbn [strlenUTF8_loop].
    rewrite (at_index_app p _ _ 0 0) by (reflexivity || lia).
    cbn [app]. rewrite ld_cons_0.
    assert (Hnz : byte.unsigned c <> 0) by (rewrite unsigned_zero; congruence).
    rewrite (proj2 (Z.eqb_neq _ _) Hnz). cbn [negb].
    rewrite add32_small by lia.
    specialize (IH Hs fuel (p ++ [c])).
    rewrite length_app in IH. cbn [length] in IH.
    rewrite <- app_assoc in IH. cbn [app] in IH.
    replace (Z.of_nat (length p) + 1) with (Z.of_nat (length p + 1)) by lia.
    rewrite count_leads_cons. fold (is_lead c).
    destruct (is_lead c).
    + rewrite add32_small by lia. rewrite IH by lia. f_equal; lia.
    + rewrite IH by lia. f_equal; lia.
Qed.

Lemma strlenUTF8_sized_loop_counts (l rest : list byte) :
  forall (p : list byte) (count : Z),
    Z.of_nat (length p + length l) < 2 ^ 32 ->
    0 <= count -> count + Z.of_nat (length l) < 2 ^ 32 ->
    strlenUTF8_sized_loop (length l) (p ++ l ++ rest) (Z.of_nat (length p)) count
      = count + count_leads l.
Proof.
  induction l as [ | c l IH]; intros p count Hlen Hc Hcount.
  - unfold count_leads; cbn. lia.
  - cbn [length] in *. cbn [strlenUTF8_sized_loop].
    rewrite (at_index_app p _ _ 0 0) by (reflexivity || lia).
    cbn [app]. rewrite ld_cons_0.
    rewrite add32_small by lia.
    specialize (IH (p ++ [c])).
    rewrite length_app in IH. cbn [length] in IH.
    rewrite <- app_assoc in IH. cbn [app] in IH.
    replace (Z.of_nat (length p) + 1) with (Z.of_nat (length p + 1)) by lia.
    rewrite count_leads_cons. fold (is_lead c).
    destruct (is_lead c).
    + rewrite add32_small by lia. rewrite IH by lia. lia.
    + rewrite IH by lia. lia.
Qed.

Lemma strsizeUTF8_finds (s rest : list byte) (fuel : nat) :
  Byte.x00 ∉ s -> Z.of_nat (length s) < 2 ^ 32 -> (length s <= fuel)%nat ->
  strsizeUTF8_loop fuel (s ++ Byte.x00 :: rest) 0 = Some (Z.of_nat (length s)).
Proof.
  intros Hs Hlen Hfuel.
  exact (strsizeUTF8_loop_finds s rest Hs fuel [] Hlen Hfuel).
Qed.

Lemma strlenUTF8_counts (s rest : list byte) (fuel : nat) :
  Byte.x00 ∉ s -> Z.of_nat (length s) < 2 ^ 32 -> (length s <= fuel)%nat ->
  strlenUTF8_loop fuel (s ++ Byte.x00 :: rest) 0 0 = Some (count_leads s).
Proof.
  intros Hs Hlen Hfuel.
  exact (strlenUTF8_loop_counts s rest Hs fuel [] 0 Hlen ltac:(lia) ltac:(lia) Hfuel).
Qed.

Lemma strlenUTF8_sized_counts (l rest : list byte) :
  Z.of_nat (length l) < 2 ^ 32 ->
  strlenUTF8_sized_loop (length l) (l ++ rest) 0 0 = count_leads l.
Proof.
  intros Hlen.
  exact (strlenUTF8_sized_loop_counts l rest [] 0 Hlen ltac:(lia) ltac:(lia)).
Qed.

End Strings.

Section Utf8Strings.

Lemma st_cons_0 (c : byte) (l : list byte) (z : Z) :
  st (c :: l) 0 z = byte.of_Z z :: l.
Proof. reflexivity. Qed.

Lemma st_cons_S (c : byte) (l : list byte) (i : nat) (z : Z) :
  st (c :: l) (S i) z = c :: st l i z.
Proof. reflexivity. Qed.

Lemma is_lead_of_Z (z : Z) :
  is_lead (byte.of_Z z) = negb (z mod 256 / 64 * 64 =? 0x80).
Proof.
  unfold is_lead. fold (lo8 z). rewrite lo8_mod.
  rewrite land_c0 by (apply Z.mod_pos_bound; lia). reflexivity.
Qed.

Lemma of_Z_zero (z : Z) : byte.of_Z z = Byte.x00 <-> z mod 256 = 0.
Proof.
  rewrite <- unsigned_zero. fold (lo8 z). now rewrite lo8_mod.
Qed.

(** The bytes of one encoded rune: a lead byte, then continuation bytes
    only; none of them is zero unless the rune is. *)
Lemma utf8_bytes_shape (java : bool) (r : Z) :
  is_rune r ->
  count_leads (utf8_bytes java r) = 1
  /\ Z.of_nat (length (utf8_bytes java r))
     = units_needed (if java then OTHER else UTF8) r
  /\ (java = true \/ r <> 0 -> Byte.x00 ∉ utf8_bytes java r).
Proof.
  intros [Hr Hs]. unfold utf8_bytes, encoded, setUTF8, units_needed. cbv zeta.
  rewrite ?is_surrogate_test by lia.
  destruct java; cbn [andb]; decide_tests;
    goal_ifs; bools; try lia; try (exfalso; lia);
    repeat first [ rewrite st_cons_0 | rewrite st_cons_S ];
    match goal with
    | |- context [Z.to_nat ?n] =>
        let k := eval cbv in (Z.to_nat n) in change (Z.to_nat n) with k
    end;
    cbn [firstn length];
    rewrite ?count_leads_cons, ?is_lead_of_Z;
    rewrite ?cont_byte by (try split; try lia; div_lia);
    rewrite ?cont_byte0;
    rewrite ?lead_byte by (try split; try lia; div_lia);
    rewrite ?lor_lead2, ?lor_lead3, ?lor_lead4 by div_lia;
    (split; [ | split; [ reflexivity | ] ]).
  all: try (intros [Hnz | Hnz]; try discriminate; rewrite ?not_elem_of_cons;
            repeat split; try apply not_elem_of_nil;
            intros Heq; symmetry in Heq; apply of_Z_zero in Heq; div_lia).
  all: unfold count_leads; cbn [filter list_filter length];
    repeat match goal with
      | |- context [?x =? ?y] => destruct (Z.eqb_spec x y)
      end; cbn [negb]; try reflexivity; exfalso; div_lia.
Qed.

Lemma utf8_string_shape (java : bool) (rs : list Z) :
  Forall is_rune rs ->
  count_leads (utf8_string java rs) = Z.of_nat (length rs)
  /\ (java = true \/ 0 ∉ rs -> Byte.x00 ∉ utf8_string java rs).
Proof.
  induction 1 as [ | r rs Hr Hrs [IHc IHz]]; cbn [utf8_string flat_map length].
  - split; [ reflexivity | intros _; apply not_elem_of_nil ].
  - destruct (utf8_bytes_shape java r Hr) as (Hc & _ & Hz).
    fold (utf8_string java rs). rewrite count_leads_app, Hc, IHc.
    split; [ lia | ].
    intros Hj. rewrite not_elem_of_app. split.
    + apply Hz. destruct Hj as [Hj | Hj]; [ now left | right ].
      intros ->. apply Hj. left.
    + apply IHz. destruct Hj as [Hj | Hj]; [ now left | right ].
      intros Hin. apply Hj. now right.
Qed.

End Utf8Strings.

Section WideStrings.

Lemma sub32_small (x y : Z) : 0 <= x - y < 2 ^ 32 -> sub32 x y = x - y.
Proof. intros H. rewrite sub32_eq. now apply Z.mod_small. Qed.

Lemma length_concat_units (width : nat) (units : list (list byte)) :
  nonzero_units width units ->
  length (concat units) = (width * length units)%nat.
Proof.
  induction 1 as [ | u units [Hu _] _ IH]; cbn [concat length]; [ lia | ].
  rewrite length_app, IH, Hu. lia.
Qed.

(** Reads of the unit at [index], the buffer being given from there on. *)
Ltac unit_reads p :=
  rewrite ?(at_index_app p _ _ 0 0), ?(at_index_app p _ _ 1 1),
    ?(at_index_app p _ _ 2 2), ?(at_index_app p _ _ 3 3)
    by (reflexivity || lia);
  rewrite ?ld_cons_S, ?ld_cons_0.

(** Additions that do not wrap. *)
Ltac small_adds :=
  repeat match goal with
    | |- context [add32 ?x ?y] => rewrite (add32_small x y) by lia
    | |- context [sub32 ?x ?y] => rewrite (sub32_small x y) by lia
    end.

Ltac next_unit IH :=
  rewrite length_app in IH; cbn [length] in IH;
  rewrite <- app_assoc in IH; cbn [app] in IH.

Lemma nonzero_unit_2 (a b : byte) :
  [a; b] <> replicate 2 Byte.x00 ->
  negb (byte.unsigned a =? 0) || negb (byte.unsigned b =? 0) = true.
Proof.
  intros Hne.
  destruct (Z.eqb_spec (byte.unsigned a) 0) as [Ha | ]; [ | reflexivity ].
  destruct (Z.eqb_spec (byte.unsigned b) 0) as [Hb | ]; [ | reflexivity ].
  apply unsigned_zero in Ha, Hb. subst. now destruct Hne.
Qed.

Lemma nonzero_unit_4 (a b c d : byte) :
  [a; b; c; d] <> replicate 4 Byte.x00 ->
  negb (byte.unsigned a =? 0) || negb (byte.unsigned b =? 0)
  || negb (byte.unsigned c =? 0) || negb (byte.unsigned d =? 0) = true.
Proof.
  intros Hne.
  destruct (Z.eqb_spec (byte.unsigned a) 0) as [Ha | ]; [ | reflexivity ].
  destruct (Z.eqb_spec (byte.unsigned b) 0) as [Hb | ]; [ | reflexivity ].
  destruct (Z.eqb_spec (byte.unsigned c) 0) as [Hc | ]; [ | reflexivity ].
  destruct (Z.eqb_spec (byte.unsigned d) 0) as [Hd | ]; [ | reflexivity ].
  apply unsigned_zero in Ha, Hb, Hc, Hd. subst. now destruct Hne.
Qed.

Lemma strsizeUTF16_loop_finds (units : list (list byte)) (rest : list byte) :
  nonzero_units 2 units ->
  forall (fuel : nat) (p : list byte),
    Z.of_nat (length p + 2 * length units) + 2 <= 2 ^ 32 ->
    (length units <= fuel)%nat ->
    strsizeUTF16_loop fuel
      (p ++ concat units ++ Byte.x00 :: Byte.x00 :: rest) (Z.of_nat (length p))
    = Some (Z.of_nat (length p + 2 * length units)).
Proof.
  induction 1 as [ | u units [Hu Hne] _ IH]; intros fuel p Hlen Hfuel;
    cbn [length concat] in *.
  - destruct fuel; cbn [strsizeUTF16_loop app]; unit_reads p;
      cbn; do 2 f_equal; lia.
  - destruct u as [ | a [ | b [ | ? ?]]]; try discriminate.
    destruct fuel as [ | fuel]; [ lia | ].
    cbn [strsizeUTF16_loop app]. unit_reads p.
    rewrite (nonzero_unit_2 a b Hne).
    rewrite add32_small by lia.
    specialize (IH fuel (p ++ [a; b])). next_unit IH.
    replace (Z.of_nat (length p) + 2) with (Z.of_nat (length p + 2)) by lia.
    rewrite IH by lia. f_equal. lia.
Qed.

Lemma strsizeUTF32_loop_finds (units : list (list byte)) (rest : list byte) :
  nonzero_units 4 units ->
  forall (fuel : nat) (p : list byte),
    Z.of_nat (length p + 4 * length units) + 4 <= 2 ^ 32 ->
    (length units <= fuel)%nat ->
    strsizeUTF32_loop fuel
      (p ++ concat units ++ Byte.x00 :: Byte.x00 :: Byte.x00 :: Byte.x00 :: rest)
      (Z.of_nat (length p))
    = Some (Z.of_nat (length p + 4 * length units)).
Proof.
  induction 1 as [ | u units [Hu Hne] _ IH]; intros fuel p Hlen Hfuel;
    cbn [length concat] in *.
  - destruct fuel; cbn [strsizeUTF32_loop app]; unit_reads p;
      cbn; do 2 f_equal; lia.
  - destruct u as [ | a [ | b [ | c [ | d [ | ? ?]]]]]; try discriminate.
    destruct fuel as [ | fuel]; [ lia | ].
    cbn [strsizeUTF32_loop app]. unit_reads p.
    rewrite (nonzero_unit_4 a b c d Hne).
    rewrite add32_small by lia.
    specialize (IH fuel (p ++ [a; b; c; d])). next_unit IH.
    replace (Z.of_nat (length p) + 4) with (Z.of_nat (length p + 4)) by lia.
    rewrite IH by lia. f_equal. lia.
Qed.

Lemma strlenUTF32_loop_counts (units : list (list byte)) (rest : list byte) :
  nonzero_units 4 units ->
  forall (fuel : nat) (p : list byte) (count : Z),
    Z.of_nat (length p + 4 * length units) + 4 <= 2 ^ 32 ->
    0 <= count -> count + Z.of_nat (length units) < 2 ^ 32 ->
    (length units <= fuel)%nat ->
    strlenUTF32_loop fuel
      (p ++ concat units ++ Byte.x00 :: Byte.x00 :: Byte.x00 :: Byte.x00 :: rest)
      (Z.of_nat (length p)) count
    = Some (count + Z.of_nat (length units)).
Proof.
  induction 1 as [ | u units [Hu Hne] _ IH];
    intros fuel p count Hlen Hc Hcount Hfuel; cbn [length concat] in *.
  - destruct fuel; cbn [strlenUTF32_loop app]; unit_reads p;
      cbn; f_equal; lia.
  - destruct u as [ | a [ | b [ | c [ | d [ | ? ?]]]]]; try discriminate.
    destruct fuel as [ | fuel]; [ lia | ].
    cbn [strlenUTF32_loop app]. unit_reads p.
    rewrite (nonzero_unit_4 a b c d Hne).
    rewrite !add32_small by lia.
    specialize (IH fuel (p ++ [a; b; c; d]) (count + 1)). next_unit IH.
    replace (Z.of_nat (length p) + 4) with (Z.of_nat (length p + 4)) by lia.
    rewrite IH by lia. f_equal. lia.
Qed.



Lemma unit16_test (v : Z) :
  0 <= v < 2 ^ 16 -> Z.land v 0xfc00 = v / 1024 * 1024.
Proof. intros H. exact (land_high 16 10 v ltac:(lia) H). Qed.

Lemma unit16_range (hi lo : Z) : 0 <= unit16 hi lo < 2 ^ 16.
Proof. unfold unit16. apply Z.mod_pos_bound. lia. Qed.

Lemma unit16_bytes (w : Z) :
  unit16 (w / 2 ^ 8 mod 256) (w mod 256) = w mod 2 ^ 16.
Proof. unfold unit16. rewrite Z.shiftl_mul_pow2 by lia. div_lia. Qed.

Lemma unit16_bytes_high (w : Z) :
  0 <= w < 2 ^ 32 ->
  unit16 (w / 2 ^ 24 mod 256) (w / 2 ^ 16 mod 256) = w / 2 ^ 16.
Proof. intros Hw. unfold unit16. rewrite Z.shiftl_mul_pow2 by lia. div_lia. Qed.

Lemma unsigned_of_Z_mod (z : Z) : byte.unsigned (byte.of_Z z) = z mod 256.
Proof. exact (lo8_mod z). Qed.

Ltac utf16_shape_tac r :=
  rewrite ?is_surrogate_test by lia;
  cbn [andb]; decide_tests;
  goal_ifs; bools; try lia; try (exfalso; lia);
  repeat first [ rewrite st_cons_0 | rewrite st_cons_S ];
  match goal with
  | |- context [Z.to_nat ?n] =>
      let k := eval cbv in (Z.to_nat n) in change (Z.to_nat n) with k
  end;
  cbn [firstn];
  first
  [ left; eexists _, _; (split; [ reflexivity | ]);
    rewrite !unsigned_of_Z_mod, sar32_byte by lia;
    (split; [ | lia ]); rewrite unit16_bytes; apply Z.mod_small; lia
  | right; eexists _, _, _, _; (split; [ reflexivity | ]);
    fold (surrogate_word (sub32 r 0x10000));
    assert (Hsub : sub32 r 0x10000 = r - 0x10000) by word_arith;
    rewrite Hsub;
    pose proof (surrogate_word_range (r - 0x10000) ltac:(lia));
    rewrite !unsigned_of_Z_mod, !sar32_byte by lia;
    rewrite unit16_bytes, unit16_bytes_high by lia;
    rewrite surrogate_word_low, surrogate_word_high by lia;
    rewrite !unit16_test by div_lia;
    split; div_lia ].

Lemma utf16le_bytes_shape (r : Z) :
  is_rune r ->
  utf16_shape (fun a b => unit16 (byte.unsigned b) (byte.unsigned a)) r
              (utf16le_bytes r).
Proof.
  intros [Hr Hs]. unfold utf16_shape, utf16le_bytes, encoded, setUTF16le.
  cbv zeta. utf16_shape_tac r.
Qed.

Lemma utf16be_bytes_shape (r : Z) :
  is_rune r ->
  utf16_shape (fun a b => unit16 (byte.unsigned a) (byte.unsigned b)) r
              (utf16be_bytes r).
Proof.
  intros [Hr Hs]. unfold utf16_shape, utf16be_bytes, encoded, setUTF16be.
  cbv zeta. utf16_shape_tac r.
Qed.

Lemma not_high_surrogate (r : Z) :
  is_rune r -> r <= 0xffff -> (Z.land r 0xfc00 =? 0xd800) = false.
Proof.
  intros [Hr Hs] Hle. rewrite unit16_test by lia. apply Z.eqb_neq. div_lia.
Qed.

Lemma high_surrogate_nonzero (v : Z) :
  Z.land v 0xfc00 = 0xd800 -> (v =? 0) = false.
Proof.
  intros H. apply Z.eqb_neq. intros ->. discriminate.
Qed.

(** One turn of a counting loop over the encoded form of [r :: rs]. *)
Ltac utf16_turn shape IH Hr Hz fuel p count :=
  let a := fresh "a" in let b := fresh "b" in
  let c := fresh "c" in let d := fresh "d" in
  let Hl := fresh "Hl" in let Hv := fresh "Hv" in let Hw := fresh "Hw" in
  destruct (shape _ Hr) as [(a & b & Hl & Hv & Hw) | (a & b & c & d & Hl & Hv & Hw)];
  cbv beta in Hv, Hw; rewrite Hl in *; cbn [length app] in *;
  (destruct fuel as [ | fuel]; [ lia | ]);
  cbn beta iota delta [strlenUTF16le_loop strlenUTF16be_loop
                       strlenUTF16le_sized_loop strlenUTF16be_sized_loop];
  cbv zeta; unit_reads p;
  [ rewrite Hv, (not_high_surrogate _ Hr Hw);
    specialize (IH fuel (p ++ [a; b]) (count + 1))
  | rewrite Hv, Hw, ?(high_surrogate_nonzero _ Hv);
    specialize (IH fuel (p ++ [a; b; c; d]) (count + 1)) ];
  next_unit IH.

Lemma strlenUTF16le_loop_counts (rs : list Z) (rest : list byte) :
  Forall is_rune rs -> 0 ∉ rs ->
  forall (fuel : nat) (p : list byte) (count : Z),
    Z.of_nat (length p + length (utf16le_string rs)) + 2 <= 2 ^ 32 ->
    0 <= count -> count + Z.of_nat (length rs) < 2 ^ 32 ->
    (length rs <= fuel)%nat ->
    strlenUTF16le_loop fuel
      (p ++ utf16le_string rs ++ Byte.x00 :: Byte.x00 :: rest)
      (Z.of_nat (length p)) count
    = Some (count + Z.of_nat (length rs)).
Proof.
  induction 1 as [ | r rs Hr _ IH]; intros Hz fuel p count Hlen Hc Hcount Hfuel;
    cbn [utf16le_string flat_map length] in *.
  - destruct fuel; cbn [strlenUTF16le_loop app]; cbv zeta; unit_reads p;
      cbn; f_equal; lia.
  - apply not_elem_of_cons in Hz. destruct Hz as [Hr0 Hz].
    fold (utf16le_string rs) in *. specialize (IH Hz).
    rewrite length_app in Hlen. rewrite <- app_assoc.
    utf16_turn utf16le_bytes_shape IH Hr Hz fuel p count.
    + rewrite (proj2 (Z.eqb_neq r 0)) by congruence. cbn [negb].
      rewrite !add32_small by lia.
      replace (Z.of_nat (length p) + 2) with (Z.of_nat (length p + 2)) by lia.
      rewrite IH by lia. f_equal. lia.
    + cbn [negb]. rewrite !Z.eqb_refl. small_adds.
      replace (Z.of_nat (length p) + 2 + 2) with (Z.of_nat (length p + 4)) by lia.
      rewrite IH by lia. f_equal. lia.
Qed.

Lemma strlenUTF16be_loop_counts (rs : list Z) (rest : list byte) :
  Forall is_rune rs -> 0 ∉ rs ->
  forall (fuel : nat) (p : list byte) (count : Z),
    Z.of_nat (length p + length (utf16be_string rs)) + 2 <= 2 ^ 32 ->
    0 <= count -> count + Z.of_nat (length rs) < 2 ^ 32 ->
    (length rs <= fuel)%nat ->
    strlenUTF16be_loop fuel
      (p ++ utf16be_string rs ++ Byte.x00 :: Byte.x00 :: rest)
      (Z.of_nat (length p)) count
    = Some (count + Z.of_nat (length rs)).
Proof.
  induction 1 as [ | r rs Hr _ IH]; intros Hz fuel p count Hlen Hc Hcount Hfuel;
    cbn [utf16be_string flat_map length] in *.
  - destruct fuel; cbn [strlenUTF16be_loop app]; cbv zeta; unit_reads p;
      cbn; f_equal; lia.
  - apply not_elem_of_cons in Hz. destruct Hz as [Hr0 Hz].
    fold (utf16be_string rs) in *. specialize (IH Hz).
    rewrite length_app in Hlen. rewrite <- app_assoc.
    utf16_turn utf16be_bytes_shape IH Hr Hz fuel p count.
    + rewrite (proj2 (Z.eqb_neq r 0)) by congruence. cbn [negb].
      rewrite !add32_small by lia.
      replace (Z.of_nat (length p) + 2) with (Z.of_nat (length p + 2)) by lia.
      rewrite IH by lia. f_equal. lia.
    + cbn [negb]. rewrite !Z.eqb_refl. small_adds.
      replace (Z.of_nat (length p) + 2 + 2) with (Z.of_nat (length p + 4)) by lia.
      rewrite IH by lia. f_equal. lia.
Qed.

Lemma strlenUTF16le_sized_loop_counts (rs : list Z) (rest : list byte) :
  Forall is_rune rs ->
  forall (fuel : nat) (p : list byte) (count : Z),
    Z.of_nat (length p + length (utf16le_string rs)) < 2 ^ 32 ->
    0 <= count -> count + Z.of_nat (length rs) < 2 ^ 32 ->
    (length rs <= fuel)%nat ->
    strlenUTF16le_sized_loop fuel (p ++ utf16le_string rs ++ rest)
      (Z.of_nat (length p)) (Z.of_nat (length (utf16le_string rs))) count
    = Some (count + Z.of_nat (length rs)).
Proof.
  induction 1 as [ | r rs Hr _ IH];
    intros fuel p count Hlen Hc Hcount Hfuel;
    cbn [utf16le_string flat_map length] in *.
  - destruct fuel; cbn; f_equal; lia.
  - fold (utf16le_string rs) in *.
    rewrite length_app in Hlen. rewrite <- app_assoc.
    utf16_turn utf16le_bytes_shape IH Hr Hr fuel p count.
    + decide_tests. small_adds.
      replace (Z.of_nat (length p) + 2) with (Z.of_nat (length p + 2)) by lia.
      replace (Z.of_nat (S (S (length (utf16le_string rs)))) - 2)
        with (Z.of_nat (length (utf16le_string rs))) by lia.
      rewrite IH by lia. f_equal. lia.
    + decide_tests. rewrite !Z.eqb_refl. cbn [andb]. small_adds.
      replace (Z.of_nat (length p) + 2 + 2) with (Z.of_nat (length p + 4)) by lia.
      replace (Z.of_nat (S (S (S (S (length (utf16le_string rs)))))) - 2 - 2)
        with (Z.of_nat (length (utf16le_string rs))) by lia.
      rewrite IH by lia. f_equal. lia.
Qed.

Lemma strlenUTF16be_sized_loop_counts (rs : list Z) (rest : list byte) :
  Forall is_rune rs ->
  forall (fuel : nat) (p : list byte) (count : Z),
    Z.of_nat (length p + length (utf16be_string rs)) < 2 ^ 32 ->
    0 <= count -> count + Z.of_nat (length rs) < 2 ^ 32 ->
    (length rs <= fuel)%nat ->
    strlenUTF16be_sized_loop fuel (p ++ utf16be_string rs ++ rest)
      (Z.of_nat (length p)) (Z.of_nat (length (utf16be_string rs))) count
    = Some (count + Z.of_nat (length rs)).
Proof.
  induction 1 as [ | r rs Hr _ IH];
    intros fuel p count Hlen Hc Hcount Hfuel;
    cbn [utf16be_string flat_map length] in *.
  - destruct fuel; cbn; f_equal; lia.
  - fold (utf16be_string rs) in *.
    rewrite length_app in Hlen. rewrite <- app_assoc.
    utf16_turn utf16be_bytes_shape IH Hr Hr fuel p count.
    + decide_tests. small_adds.
      replace (Z.of_nat (length p) + 2) with (Z.of_nat (length p + 2)) by lia.
      replace (Z.of_nat (S (S (length (utf16be_string rs)))) - 2)
        with (Z.of_nat (length (utf16be_string rs))) by lia.
      rewrite IH by lia. f_equal. lia.
    + decide_tests. rewrite !Z.eqb_refl. cbn [andb]. small_adds.
      replace (Z.of_nat (length p) + 2 + 2) with (Z.of_nat (length p + 4)) by lia.
      replace (Z.of_nat (S (S (S (S (length (utf16be_string rs)))))) - 2 - 2)
        with (Z.of_nat (length (utf16be_string rs))) by lia.
      rewrite IH by lia. f_equal. lia.
Qed.

Lemma utf16le_string_length (rs : list Z) :
  Forall is_rune rs -> (2 * length rs <= length (utf16le_string rs))%nat.
Proof.
  induction 1 as [ | r rs Hr _ IH]; cbn [utf16le_string flat_map length];
    [ lia | ].
  fold (utf16le_string rs). rewrite length_app.
  destruct (utf16le_bytes_shape r Hr)
    as [(a & b & -> & _) | (a & b & c & d & -> & _)]; cbn [length]; lia.
Qed.

Lemma utf16be_string_length (rs : list Z) :
  Forall is_rune rs -> (2 * length rs <= length (utf16be_string rs))%nat.
Proof.
  induction 1 as [ | r rs Hr _ IH]; cbn [utf16be_string flat_map length];
    [ lia | ].
  fold (utf16be_string rs). rewrite length_app.
  destruct (utf16be_bytes_shape r Hr)
    as [(a & b & -> & _) | (a & b & c & d & -> & _)]; cbn [length]; lia.
Qed.

End WideStrings.

(** X14. [strsizeUTF8] returns the index of the first zero byte: the bytes
    before it are counted whatever they are, and nothing after it is
    looked at. *)
Theorem strsizeUTF8_first_zero (s rest : list byte) (fuel : nat) :
  Byte.x00 ∉ s -> Z.of_nat (length s) < 2 ^ 32 -> (length s <= fuel)%nat ->
  strsizeUTF8 fuel (Some (s ++ Byte.x00 :: rest)) = Some (Z.of_nat (length s)).
Proof.
  intros Hs Hlen Hfuel. exact (strsizeUTF8_finds s rest fuel Hs Hlen Hfuel).
Qed.

Lemma strsizeUTF8_first_zero_witness :
  (Byte.x00 ∉ [Byte.x41; Byte.x42]) /\
  strsizeUTF8 2 (Some ([Byte.x41; Byte.x42] ++ Byte.x00 :: [Byte.x43])) = Some 2.
Proof.
  assert (Hs : Byte.x00 ∉ [Byte.x41; Byte.x42]).
  { rewrite !not_elem_of_cons. repeat split; try discriminate. apply not_elem_of_nil. }
  split; [ exact Hs | ].
  apply (strsizeUTF8_first_zero [Byte.x41; Byte.x42] [Byte.x43] 2 Hs); simpl; lia.
Defined.

(** X15. On a terminated buffer [strlenUTF8(buffer)] is
    [strlenUTF8(buffer, size)] at the size that [strsizeUTF8] returns, and
    both count the bytes before the terminator that are no continuation
    bytes (10xxxxxx), well-formed or not. *)
Theorem strlenUTF8_terminated (s rest : list byte) (fuel : nat) :
  Byte.x00 ∉ s -> Z.of_nat (length s) < 2 ^ 32 -> (length s <= fuel)%nat ->
  exists size,
    strsizeUTF8 fuel (Some (s ++ Byte.x00 :: rest)) = Some size
    /\ strlenUTF8 fuel (Some (s ++ Byte.x00 :: rest))
       = Some (strlenUTF8_sized (Some (s ++ Byte.x00 :: rest)) size)
    /\ strlenUTF8_sized (Some (s ++ Byte.x00 :: rest)) size = count_leads s.
Proof.
  intros Hs Hlen Hfuel. exists (Z.of_nat (length s)).
  assert (Hsized : strlenUTF8_sized (Some (s ++ Byte.x00 :: rest))
                     (Z.of_nat (length s)) = count_leads s).
  { unfold strlenUTF8_sized. rewrite Nat2Z.id.
    now rewrite strlenUTF8_sized_counts. }
  split; [ exact (strsizeUTF8_finds s rest fuel Hs Hlen Hfuel) | ].
  split; [ | exact Hsized ].
  rewrite Hsized. unfold strlenUTF8. now rewrite strlenUTF8_counts.
Qed.

Lemma strlenUTF8_terminated_witness :
  (Byte.x00 ∉ [Byte.xc3; Byte.xa9; Byte.x41]) /\
  exists size,
    strsizeUTF8 3 (Some ([Byte.xc3; Byte.xa9; Byte.x41] ++ Byte.x00 :: [])) = Some size
    /\ strlenUTF8 3 (Some ([Byte.xc3; Byte.xa9; Byte.x41] ++ Byte.x00 :: []))
       = Some (strlenUTF8_sized
                 (Some ([Byte.xc3; Byte.xa9; Byte.x41] ++ Byte.x00 :: [])) size)
    /\ strlenUTF8_sized
         (Some ([Byte.xc3; Byte.xa9; Byte.x41] ++ Byte.x00 :: [])) size
       = count_leads [Byte.xc3; Byte.xa9; Byte.x41].
Proof.
  assert (Hs : Byte.x00 ∉ [Byte.xc3; Byte.xa9; Byte.x41]).
  { rewrite !not_elem_of_cons. repeat split; try discriminate. apply not_elem_of_nil. }
  split; [ exact Hs | ].
  apply (strlenUTF8_terminated [Byte.xc3; Byte.xa9; Byte.x41] [] 3 Hs); simpl; lia.
Defined.

(** X16. On well-formed UTF-8, the encoded forms of code points one after
    the other (with the Java flag, C0 80 for 0), both forms of
    [strlenUTF8] give the number of code points: the terminated one when
    no code point is encoded with a zero byte, the sized one always. *)
Theorem strlenUTF8_code_points (java : bool) (rs : list Z) (rest : list byte)
    (fuel : nat) :
  Forall is_rune rs ->
  Z.of_nat (length (utf8_string java rs)) < 2 ^ 32 ->
  (length (utf8_string java rs) <= fuel)%nat ->
  (java = true \/ 0 ∉ rs ->
   strlenUTF8 fuel (Some (utf8_string java rs ++ Byte.x00 :: rest))
   = Some (Z.of_nat (length rs)))
  /\ strlenUTF8_sized (Some (utf8_string java rs ++ rest))
       (Z.of_nat (length (utf8_string java rs)))
     = Z.of_nat (length rs).
Proof.
  intros Hrs Hlen Hfuel.
  destruct (utf8_string_shape java rs Hrs) as [Hc Hnz].
  split.
  - intros Hz. unfold strlenUTF8.
    rewrite strlenUTF8_counts by auto. now f_equal.
  - unfold strlenUTF8_sized. rewrite Nat2Z.id.
    now rewrite strlenUTF8_sized_counts.
Qed.

Lemma strlenUTF8_code_points_witness :
  Forall is_rune [0x20ac; 0x41; 0x1f600] /\
  strlenUTF8 9 (Some (utf8_string false [0x20ac; 0x41; 0x1f600] ++ Byte.x00 :: []))
  = Some 3.
Proof.
  assert (Hrs : Forall is_rune [0x20ac; 0x41; 0x1f600])
    by (repeat constructor; unfold is_rune; lia).
  split; [ exact Hrs | ].
  apply (strlenUTF8_code_points false [0x20ac; 0x41; 0x1f600] [] 9 Hrs).
  - vm_compute. reflexivity.
  - vm_compute. lia.
  - right. rewrite !not_elem_of_cons. repeat split; try discriminate.
    apply not_elem_of_nil.
Defined.

(** X17. [strsizeUTF16] returns the offset of the first two-byte unit, at
    an even offset, whose bytes are both zero. *)
Theorem strsizeUTF16_first_zero_unit (units : list (list byte))
    (rest : list byte) (fuel : nat) :
  nonzero_units 2 units ->
  2 * Z.of_nat (length units) + 2 <= 2 ^ 32 ->
  (length units <= fuel)%nat ->
  strsizeUTF16 fuel (Some (concat units ++ Byte.x00 :: Byte.x00 :: rest))
  = Some (2 * Z.of_nat (length units)).
Proof.
  intros Hu Hlen Hfuel. unfold strsizeUTF16.
  pose proof (strsizeUTF16_loop_finds units rest Hu fuel []) as Hloop.
    cbn [app length Nat.add] in Hloop. change (Z.of_nat 0) with 0 in Hloop.
    rewrite Hloop by lia.
  f_equal. lia.
Qed.

Lemma strsizeUTF16_first_zero_unit_witness :
  nonzero_units 2 [[Byte.x00; Byte.x41]; [Byte.x42; Byte.x00]] /\
  strsizeUTF16 2
    (Some (concat [[Byte.x00; Byte.x41]; [Byte.x42; Byte.x00]]
           ++ Byte.x00 :: Byte.x00 :: [Byte.x43]))
  = Some (2 * Z.of_nat (length [[Byte.x00; Byte.x41]; [Byte.x42; Byte.x00]])).
Proof.
  assert (Hu : nonzero_units 2 [[Byte.x00; Byte.x41]; [Byte.x42; Byte.x00]])
    by (repeat constructor; discriminate).
  split; [ exact Hu | ].
  apply (strsizeUTF16_first_zero_unit _ [Byte.x43] 2 Hu); simpl; lia.
Defined.

(** X18. On a buffer of four-byte units ended by a unit of four zero
    bytes, [strsizeUTF32] returns the offset of that unit and
    [strlenUTF32] the number of units before it: the size is four times
    the length. *)
Theorem strlenUTF32_terminated (units : list (list byte)) (rest : list byte)
    (fuel : nat) :
  nonzero_units 4 units ->
  4 * Z.of_nat (length units) + 4 <= 2 ^ 32 ->
  (length units <= fuel)%nat ->
  strsizeUTF32 fuel
    (Some (concat units ++ Byte.x00 :: Byte.x00 :: Byte.x00 :: Byte.x00 :: rest))
  = Some (4 * Z.of_nat (length units))
  /\ strlenUTF32 fuel
       (Some (concat units ++ Byte.x00 :: Byte.x00 :: Byte.x00 :: Byte.x00 :: rest))
     = Some (Z.of_nat (length units)).
Proof.
  intros Hu Hlen Hfuel. unfold strsizeUTF32, strlenUTF32. split.
  - pose proof (strsizeUTF32_loop_finds units rest Hu fuel []) as Hloop.
    cbn [app length Nat.add] in Hloop. change (Z.of_nat 0) with 0 in Hloop.
    rewrite Hloop by lia.
    f_equal. lia.
  - pose proof (strlenUTF32_loop_counts units rest Hu fuel [] 0) as Hloop.
    cbn [app length Nat.add] in Hloop. change (Z.of_nat 0) with 0 in Hloop.
    rewrite Hloop by lia.
    f_equal.
Qed.

Lemma strlenUTF32_terminated_witness :
  nonzero_units 4 [[Byte.x41; Byte.x00; Byte.x00; Byte.x00]] /\
  strlenUTF32 1
    (Some (concat [[Byte.x41; Byte.x00; Byte.x00; Byte.x00]]
           ++ Byte.x00 :: Byte.x00 :: Byte.x00 :: Byte.x00 :: []))
  = Some (Z.of_nat (length [[Byte.x41; Byte.x00; Byte.x00; Byte.x00]])).
Proof.
  assert (Hu : nonzero_units 4 [[Byte.x41; Byte.x00; Byte.x00; Byte.x00]])
    by (repeat constructor; discriminate).
  split; [ exact Hu | ].
  apply (strlenUTF32_terminated _ [] 1 Hu); simpl; lia.
Defined.

(** X19. On well-formed UTF-16LE, the encoded forms of code points one
    after the other, both forms of [strlenUTF16le] give the number of code
    points, a surrogate pair counting once: the terminated one when no
    code point is 0, the sized one always. *)
Theorem strlenUTF16le_code_points (rs : list Z) (rest : list byte)
    (fuel : nat) :
  Forall is_rune rs ->
  Z.of_nat (length (utf16le_string rs)) + 2 <= 2 ^ 32 ->
  (length rs <= fuel)%nat ->
  (0 ∉ rs ->
   strlenUTF16le fuel
     (Some (utf16le_string rs ++ Byte.x00 :: Byte.x00 :: rest))
   = Some (Z.of_nat (length rs)))
  /\ strlenUTF16le_sized fuel (Some (utf16le_string rs ++ rest))
       (Z.of_nat (length (utf16le_string rs)))
     = Some (Z.of_nat (length rs)).
Proof.
  intros Hrs Hlen Hfuel. pose proof (utf16le_string_length rs Hrs).
  unfold strlenUTF16le, strlenUTF16le_sized. split.
  - intros Hz.
    pose proof (strlenUTF16le_loop_counts rs rest Hrs Hz fuel [] 0) as Hloop.
    cbn [app length Nat.add] in Hloop. change (Z.of_nat 0) with 0 in Hloop.
    rewrite Hloop by lia.
    f_equal.
  - pose proof (strlenUTF16le_sized_loop_counts rs rest Hrs fuel [] 0) as Hloop.
    cbn [app length Nat.add] in Hloop. change (Z.of_nat 0) with 0 in Hloop.
    rewrite Hloop by lia.
    f_equal.
Qed.

Lemma strlenUTF16le_code_points_witness :
  Forall is_rune [0x20ac; 0x1f600] /\
  strlenUTF16le_sized 2 (Some (utf16le_string [0x20ac; 0x1f600] ++ []))
    (Z.of_nat (length (utf16le_string [0x20ac; 0x1f600])))
  = Some 2.
Proof.
  assert (Hrs : Forall is_rune [0x20ac; 0x1f600])
    by (repeat constructor; unfold is_rune; lia).
  split; [ exact Hrs | ].
  apply (strlenUTF16le_code_points [0x20ac; 0x1f600] [] 2 Hrs).
  - vm_compute. discriminate.
  - simpl. lia.
Defined.

(** X20. On well-formed UTF-16BE both forms of [strlenUTF16be] give the
    number of code points, a surrogate pair counting once: the terminated
    one when no code point is 0, the sized one always. *)
Theorem strlenUTF16be_code_points (rs : list Z) (rest : list byte)
    (fuel : nat) :
  Forall is_rune rs ->
  Z.of_nat (length (utf16be_string rs)) + 2 <= 2 ^ 32 ->
  (length rs <= fuel)%nat ->
  (0 ∉ rs ->
   strlenUTF16be fuel
     (Some (utf16be_string rs ++ Byte.x00 :: Byte.x00 :: rest))
   = Some (Z.of_nat (length rs)))
  /\ strlenUTF16be_sized fuel (Some (utf16be_string rs ++ rest))
       (Z.of_nat (length (utf16be_string rs)))
     = Some (Z.of_nat (length rs)).
Proof.
  intros Hrs Hlen Hfuel. pose proof (utf16be_string_length rs Hrs).
  unfold strlenUTF16be, strlenUTF16be_sized. split.
  - intros Hz.
    pose proof (strlenUTF16be_loop_counts rs rest Hrs Hz fuel [] 0) as Hloop.
    cbn [app length Nat.add] in Hloop. change (Z.of_nat 0) with 0 in Hloop.
    rewrite Hloop by lia.
    f_equal.
  - pose proof (strlenUTF16be_sized_loop_counts rs rest Hrs fuel [] 0) as Hloop.
    cbn [app length Nat.add] in Hloop. change (Z.of_nat 0) with 0 in Hloop.
    rewrite Hloop by lia.
    f_equal.
Qed.

Lemma strlenUTF16be_code_points_witness :
  Forall is_rune [0x41; 0x10348] /\
  (0 ∉ [0x41; 0x10348] ->
   strlenUTF16be 2
     (Some (utf16be_string [0x41; 0x10348] ++ Byte.x00 :: Byte.x00 :: []))
   = Some 2).
Proof.
  assert (Hrs : Forall is_rune [0x41; 0x10348])
    by (repeat constructor; unfold is_rune; lia).
  split; [ exact Hrs | ].
  apply (strlenUTF16be_code_points [0x41; 0x10348] [] 2 Hrs).
  - vm_compute. discriminate.
  - simpl. lia.
Defined.
